(** * The web UI window module of IPFS Desktop (src/webui/index.js)

    A shallow embedding of the module that owns the single application
    window: the JavaScript values it handles, the [URL] object it keeps, the
    persisted settings store, the two header interceptors, and the event
    handlers it registers with the host runtime.

    The host runtime (Electron), Node's [URL] class, the settings store and
    the logger live outside the repository.  They appear here either as
    explicit state with the behaviour their documentation gives, or as
    section variables. *)

From Stdlib Require Import Ascii.
From stdpp Require Import base option list strings pretty gmap fin_maps.

Local Open Scope string_scope.

(* ===================================================================== *)
(** ** JavaScript values *)
(* ===================================================================== *)

(** The values that reach this module.  Numbers are the integral ones
    (pixel sizes); [VNaN] is kept because it is falsy and unequal to itself.
    An object is known by its identity [ref]; [str] is what its [toString()]
    returns (a [Multiaddr] object prints as its textual address). *)
Inductive value :=
  | VUndefined
  | VNull
  | VBool (b : bool)
  | VNum (z : Z)
  | VNaN
  | VStr (s : string)
  | VObj (ref : nat) (str : string).

(** [!v] is [negb (truthy v)]. *)
Definition truthy (v : value) : bool :=
  match v with
  | VUndefined | VNull | VNaN => false
  | VBool b => b
  | VNum z => negb (z =? 0)%Z
  | VStr s => negb (String.eqb s "")
  | VObj _ _ => true
  end.

(** [a === b]. *)
Definition strict_eq (a b : value) : bool :=
  match a, b with
  | VUndefined, VUndefined => true
  | VNull, VNull => true
  | VBool x, VBool y => Bool.eqb x y
  | VNum x, VNum y => (x =? y)%Z
  | VStr x, VStr y => String.eqb x y
  | VObj x _, VObj y _ => Nat.eqb x y
  | _, _ => false
  end.

(** The abstract operation ToString, as applied by template literals and by
    the setters of [URL] and [URLSearchParams]. *)
Definition ToString (v : value) : string :=
  match v with
  | VUndefined => "undefined"
  | VNull => "null"
  | VBool true => "true"
  | VBool false => "false"
  | VNum z => pretty z
  | VNaN => "NaN"
  | VStr s => s
  | VObj _ s => s
  end.

(* ===================================================================== *)
(** ** The [URL] object *)
(* ===================================================================== *)

(** [new URL('/', 'webui://-')] has a fixed scheme, host and path; the module
    only ever changes the fragment and the query, so those are the fields.
    The query is the list of name-value pairs behind [url.searchParams], in
    order.  Percent-encoding is done by the serialiser of Node's [URL] and
    undone by the parser in the page; the fields hold the decoded text. *)
Record URL := mkURL {
  fragment : option string;
  searchParams : list (string * string)
}.

(** The setter [url.hash = v]: the empty string removes the fragment, and a
    single leading [#] is dropped. *)
Definition strip_hash (v : string) : option string :=
  match v with
  | "" => None
  | String "#"%char rest => Some rest
  | _ => Some v
  end.

Definition set_hash (v : string) (u : URL) : URL :=
  mkURL (strip_hash v) (searchParams u).

(** [URLSearchParams.prototype.get]: the value of the first pair named [k],
    or [null]. *)
Fixpoint sp_get (k : string) (l : list (string * string)) : option string :=
  match l with
  | [] => None
  | (k', v) :: l' => if String.eqb k' k then Some v else sp_get k l'
  end.

Definition sp_remove (k : string) (l : list (string * string)) : list (string * string) :=
  filter (λ p, negb (String.eqb p.1 k)) l.

(** [URLSearchParams.prototype.set]: the first pair named [k] takes the new
    value and the other pairs of that name are removed; without such a
    pair a new one is appended. *)
Fixpoint sp_set (k v : string) (l : list (string * string)) : list (string * string) :=
  match l with
  | [] => [(k, v)]
  | (k', v') :: l' =>
      if String.eqb k' k then (k, v) :: sp_remove k l'
      else (k', v') :: sp_set k v l'
  end.

Definition searchParams_set (k : string) (v : value) (u : URL) : URL :=
  mkURL (fragment u) (sp_set k (ToString v) (searchParams u)).

Definition searchParams_get (k : string) (u : URL) : option string :=
  sp_get k (searchParams u).

(* ===================================================================== *)
(** ** The settings store *)
(* ===================================================================== *)

(** [../common/store] is a persisted key-value store; a key is the full
    dotted path.  [store.get(key, dflt)] gives [dflt] when nothing is stored
    under [key]; [store.get(key)] is [store.get(key, undefined)]. *)
Definition store_lookup (m : gmap string value) (k : string) (dflt : value) : value :=
  match m !! k with
  | None | Some VUndefined => dflt
  | Some v => v
  end.

Definition CONFIG_KEY : string := "openWebUIAtLaunch".

(* ===================================================================== *)
(** ** Results of calls that may throw *)
(* ===================================================================== *)

Inductive outcome (A : Type) :=
  | Ok (a : A)
  | Throw (msg : string).
Arguments Ok {A} a.
Arguments Throw {A} msg.

Definition outcome_bind {A B} (x : outcome A) (f : A → outcome B) : outcome B :=
  match x with
  | Ok a => f a
  | Throw msg => Throw msg
  end.

(* ===================================================================== *)
(** ** HTTP headers *)
(* ===================================================================== *)

(** Electron hands response headers over as an object from header name to
    an array of values, and takes back either an array or a single string
    under each name. *)
Inductive hval :=
  | HOne (s : string)
  | HMany (l : list string).

(** An array is an object, hence truthy even when empty. *)
Definition truthy_hval (v : hval) : bool :=
  match v with
  | HOne s => negb (String.eqb s "")
  | HMany _ => true
  end.

Definition webuiOrigin : string := "webui://-".
Definition acao : string := "Access-Control-Allow-Origin".

(** The listener given to [webRequest.onHeadersReceived]; the result is the
    [responseHeaders] field of the object passed to [callback], [None] being
    [undefined] (the runtime then keeps the headers it has). *)
Definition onHeadersReceived (responseHeaders : option (gmap string (list string)))
  : option (gmap string hval) :=
  match responseHeaders with
  | None => None
  | Some received =>
      let responseHeaders := HMany <$> received in
      match responseHeaders !! acao with
      | Some v =>
          if truthy_hval v
          then Some (<[acao := HOne webuiOrigin]> responseHeaders)
          else Some responseHeaders
      | None => Some responseHeaders
      end
  end.

(** Header names are case-insensitive on the wire: two spellings name the
    same header when they agree after ASCII lower-casing. *)
Definition lower_ascii (c : ascii) : ascii :=
  let n := nat_of_ascii c in
  if ((65 <=? n) && (n <=? 90))%nat then ascii_of_nat (n + 32) else c.

Fixpoint lower (s : string) : string :=
  match s with
  | EmptyString => EmptyString
  | String c s' => String (lower_ascii c) (lower s')
  end.

Definition same_header_name (a b : string) : bool :=
  String.eqb (lower a) (lower b).

(** What [callback] receives from the [onBeforeSendHeaders] listener. *)
Record BeforeSendResponse := {
  cancel : bool;
  requestHeaders : gmap string string
}.

Section Interceptors.

(** [toUri(addr, { assumeHttp: true })] of the package multiaddr-to-uri,
    and [new URL(uri).origin]; both throw on input they cannot parse. *)
Variable toUri : value → outcome string.
Variable URL_origin : string → outcome string.

(** [VERSION] and [ELECTRON_VERSION] of [../common/consts]. *)
Variable VERSION ELECTRON_VERSION : string.

(** Converts a Multiaddr to a valid value for the Origin HTTP header. *)
Definition apiOrigin (apiMultiaddr : value) : outcome string :=
  if negb (truthy apiMultiaddr) then Ok "null"
  else outcome_bind (toUri apiMultiaddr) (λ apiUri, URL_origin apiUri).

Definition userAgent : string :=
  "ipfs-desktop/" +:+ VERSION +:+ " (Electron " +:+ ELECTRON_VERSION +:+ ")".

(** The listener given to [webRequest.onBeforeSendHeaders], run while the
    module variable [apiAddress] holds the given value.  When [apiOrigin]
    throws, [callback] is never reached. *)
Definition onBeforeSendHeaders (apiAddress : value) (headers : gmap string string)
  : outcome BeforeSendResponse :=
  outcome_bind (apiOrigin apiAddress) (λ origin,
    let headers := <["Origin" := origin]> headers in
    let headers := <["User-Agent" := userAgent]> headers in
    Ok {| cancel := false; requestHeaders := headers |}).

End Interceptors.

(* ===================================================================== *)
(** ** Module state and the calls it makes on its collaborators *)
(* ===================================================================== *)

(** A [BrowserWindow] object is known by the order of its construction. *)
Abbreviation win := nat (only parsing).

Inductive level := Info | Error.

(** The template literals handed to the logger, with their interpolated
    argument; [render] gives the text. *)
Inductive logmsg :=
  | MsgWindowReady
  | MsgLaunching
  | MsgNavigate (path : string)
  | MsgCrashed (event : string)
  | MsgUnresponsive (event : string).

Definition render (m : logmsg) : string :=
  match m with
  | MsgWindowReady => "[web ui] window ready"
  | MsgLaunching => "[web ui] launching web ui"
  | MsgNavigate path => "[web ui] navigate to " +:+ path
  | MsgCrashed event => "[web ui] crashed: " +:+ event
  | MsgUnresponsive event => "[web ui] unresponsive: " +:+ event
  end.

(** Calls that leave the module, in the order they are made. *)
Inductive effect :=
  | ELog (l : level) (m : logmsg)                (* logger.info / logger.error *)
  | ENewWindow (w : win)                         (* new BrowserWindow(...) *)
  | ELoadURL (w : win) (href : URL)              (* loadURL(url.toString()) *)
  | EReload (w : win)                            (* webContents.reload() *)
  | EShow (w : win)
  | EFocus (w : win)
  | ECloseCall (w : win)                         (* myself.close() *)
  | EDockShow
  | EDockHide
  | ESend (w : win) (channel : string) (config : gmap string value).

(** What runs when the promise made by [getWindow] for a new window is
    resolved: the invocation that created the window returns to its caller.
    [KCaller] is a caller outside the module; [KLaunch] is an invocation of
    [launchWindow] suspended at [await getWindow()], and [andThen] names the
    window whose own promise is resolved when that invocation completes
    ([launchWindow('/').then(resolve)]). *)
Inductive cont :=
  | KCaller
  | KLaunch (path : value) (focus forceRefresh : bool) (andThen : option win).

Record State := mkState {
  store : gmap string value;     (* the settings store *)
  url : URL;                     (* const url *)
  window : option win;           (* let window *)
  apiAddress : value;            (* let apiAddress *)
  created : nat;                 (* windows constructed so far *)
  live : gset win;               (* constructed and not destroyed *)
  closeL : gset win;             (* once('close') listener still registered *)
  readyL : gset win;             (* once('ready-to-show') listener still registered *)
  pending : gmap win cont;       (* invocations awaiting a window's promise *)
  out : list effect              (* calls made so far *)
}.

Definition with_store f s :=
  mkState (f (store s)) (url s) (window s) (apiAddress s) (created s) (live s)
          (closeL s) (readyL s) (pending s) (out s).
Definition with_url f s :=
  mkState (store s) (f (url s)) (window s) (apiAddress s) (created s) (live s)
          (closeL s) (readyL s) (pending s) (out s).
Definition with_window ow s :=
  mkState (store s) (url s) ow (apiAddress s) (created s) (live s)
          (closeL s) (readyL s) (pending s) (out s).
Definition with_apiAddress a s :=
  mkState (store s) (url s) (window s) a (created s) (live s)
          (closeL s) (readyL s) (pending s) (out s).
Definition with_new_window s :=
  mkState (store s) (url s) (window s) (apiAddress s) (S (created s))
          ({[created s]} ∪ live s) (closeL s) (readyL s) (pending s) (out s).
Definition with_destroyed w s :=
  mkState (store s) (url s) (window s) (apiAddress s) (created s)
          (live s ∖ {[w]}) (closeL s ∖ {[w]}) (readyL s ∖ {[w]}) (pending s) (out s).
Definition with_closeL f s :=
  mkState (store s) (url s) (window s) (apiAddress s) (created s) (live s)
          (f (closeL s)) (readyL s) (pending s) (out s).
Definition with_readyL f s :=
  mkState (store s) (url s) (window s) (apiAddress s) (created s) (live s)
          (closeL s) (f (readyL s)) (pending s) (out s).
Definition with_pending f s :=
  mkState (store s) (url s) (window s) (apiAddress s) (created s) (live s)
          (closeL s) (readyL s) (f (pending s)) (out s).
Definition with_out f s :=
  mkState (store s) (url s) (window s) (apiAddress s) (created s) (live s)
          (closeL s) (readyL s) (pending s) (f (out s)).

(** Code of the module: it reads and writes the state and may throw. *)
Definition M (A : Type) : Type := State → State * outcome A.

Global Instance M_ret : MRet M := λ A a s, (s, Ok a).
Global Instance M_bind : MBind M := λ A B f c s,
  match c s with
  | (s', Ok a) => f a s'
  | (s', Throw msg) => (s', Throw msg)
  end.

Definition gets {A} (f : State → A) : M A := λ s, (s, Ok (f s)).
Definition modify (f : State → State) : M unit := λ s, (f s, Ok ()).
Definition throw {A} (msg : string) : M A := λ s, (s, Throw msg).
Definition emit (e : effect) : M unit := modify (with_out (λ l, (l ++ [e])%list)).
Definition when (b : bool) (c : M unit) : M unit := if b then c else mret ().

(** An exception that escapes a listener is reported by the runtime and
    the dispatch of the event goes on. *)
Definition uncaught (c : M unit) : M unit := λ s, ((c s).1, Ok ()).

(** The state a piece of code leaves behind. *)
Definition exec {A} (c : M A) (s : State) : State := (c s).1.

Definition log (l : level) (m : logmsg) : M unit := emit (ELog l m).

Definition store_get (k : string) (dflt : value) : M value :=
  gets (λ s, store_lookup (store s) k dflt).

(** [store.set(key, value)]; the store refuses [undefined]. *)
Definition store_set (k : string) (v : value) : M unit :=
  match v with
  | VUndefined => throw "TypeError: Use `delete()` to clear values"
  | _ => modify (with_store (insert k v))
  end.

(** A method call on a window object: on [null] and on a destroyed window
    it throws, otherwise the call goes out. *)
Definition method (ow : option win) (call : win → effect) : M unit :=
  match ow with
  | None => throw "TypeError: Cannot read properties of null"
  | Some w =>
      alive ← gets (λ s, bool_decide (w ∈ live s));
      if alive : bool then emit (call w)
      else throw "TypeError: Object has been destroyed"
  end.

(** [w.loadURL(url.toString())] and [w.webContents.loadURL(url.toString())]. *)
Definition loadURL (ow : option win) : M unit :=
  href ← gets url;
  method ow (λ w, ELoadURL w href).

(* ===================================================================== *)
(** ** The functions of the module *)
(* ===================================================================== *)

(** [createWindow]: a new window object comes to life.  The constructor
    options and the development tools switch play no part below.  The
    listeners it registers ([crashed], [unresponsive], [resize], and
    [before-quit] on the application) stay for good, so they need no
    bookkeeping: see [dispatch]. *)
Definition createWindow : M win :=
  w ← gets created;
  modify with_new_window;;
  emit (ENewWindow w);;
  mret w.

(** The [width] and [height] options of the constructor call in
    [createWindow]: the stored size and, when none is stored, the size of
    the primary display capped at 1440 by 900.  A dimension of the display
    is a number, or [None] when the display object has no such property
    ([undefined < cap] is false, so the cap is taken). *)
Definition capped (dimension : option Z) (cap : Z) : Z :=
  match dimension with
  | Some d => if (d <? cap)%Z then d else cap
  | None => cap
  end.

Definition window_size (settings : gmap string value) (dimensions : option Z * option Z)
  : value * value :=
  (store_lookup settings "window.width" (VNum (capped dimensions.1 1440)),
   store_lookup settings "window.height" (VNum (capped dimensions.2 900))).

(** [process.env.DEBUG && process.env.DEBUG.match(/ipfs-desktop/)]: whether
    [createWindow] opens the development tools.  A variable of the
    environment is a string, or [None] when it is not set. *)
Definition opens_devtools (DEBUG : option string) : bool :=
  match DEBUG with
  | None => false
  | Some d =>
      negb (String.eqb d "") &&
      match String.index 0 "ipfs-desktop" d with
      | Some _ => true
      | None => false
      end
  end.

Definition updateLanguage : M unit :=
  language ← store_get "language" VUndefined;
  modify (with_url (searchParams_set "lng" language)).

(** How an asynchronous call stands when it hands control back: its promise
    is fulfilled, or it waits for the [ready-to-show] of a window. *)
Inductive promise (A : Type) :=
  | Resolved (a : A)
  | AwaitReady (w : win).
Arguments Resolved {A} a.
Arguments AwaitReady {A} w.

(** [getWindow], up to its [await]. *)
Definition getWindow : M (promise win) :=
  ow ← gets window;
  match ow with
  | Some w => mret (Resolved w)
  | None =>
      w ← createWindow;
      modify (with_window (Some w));;
      modify (with_closeL (union {[w]}));;        (* window.once('close', ...) *)
      modify (with_readyL (union {[w]}));;        (* window.once('ready-to-show', ...) *)
      updateLanguage;;
      loadURL (Some w);;
      mret (AwaitReady w)
  end.

(** [launchWindow] after [const window = await getWindow()]. *)
Definition launchWindow_body (ow : option win) (path : value)
    (focus forceRefresh : bool) : M unit :=
  when forceRefresh (method ow EReload);;
  (if negb (truthy path) then log Info MsgLaunching
   else
     log Info (MsgNavigate (ToString path));;
     modify (with_url (set_hash (ToString path)));;
     loadURL ow);;
  when focus (
    method ow EShow;;
    method ow EFocus;;
    emit EDockShow);;
  (* load again: minimize visual jitter on windows *)
  when (truthy path) (loadURL ow).

(** The promise made for window [w] is resolved: the invocation of
    [getWindow] that created [w] executes [return window], and its caller
    goes on.  A resolution can set off the next one only through an
    [andThen], and each consumes an entry of [pending]; [fuel] counts them. *)
Fixpoint settle (fuel : nat) (w : win) : M unit :=
  match fuel with
  | 0 => mret ()
  | S fuel =>
      k ← gets (λ s, pending s !! w);
      match k with
      | None => mret ()
      | Some k =>
          modify (with_pending (delete w));;
          match k with
          | KCaller => mret ()
          | KLaunch path focus forceRefresh andThen =>
              ow ← gets window;
              launchWindow_body ow path focus forceRefresh;;
              match andThen with
              | Some w0 => settle fuel w0
              | None => mret ()
              end
          end
      end
  end.

Definition resolve (w : win) : M unit :=
  n ← gets (λ s, size (pending s));
  settle (S n) w.

(** [launchWindow(path, { focus, forceRefresh })], the options already
    defaulted.  [andThen] is the [.then(resolve)] attached by the
    [ready-to-show] listener, when there is one. *)
Definition launchWindow (path : value) (focus forceRefresh : bool)
    (andThen : option win) : M unit :=
  p ← getWindow;
  match p with
  | Resolved w =>
      launchWindow_body (Some w) path focus forceRefresh;;
      match andThen with
      | Some w0 => resolve w0
      | None => mret ()
      end
  | AwaitReady w =>
      modify (with_pending (insert w (KLaunch path focus forceRefresh andThen)))
  end.

(** [ctx.getWebUI()] called from outside. *)
Definition getWebUI : M unit :=
  p ← getWindow;
  match p with
  | Resolved _ => mret ()
  | AwaitReady w => modify (with_pending (insert w KCaller))
  end.

(** The [close] listener registered by [getWindow]. *)
Definition on_close : M unit :=
  myself ← gets window;
  modify (with_window None);;
  emit EDockHide;;
  method myself ECloseCall.

(** The [ready-to-show] listener registered by [getWindow] for [w]. *)
Definition on_ready_to_show (w : win) : M unit :=
  log Info MsgWindowReady;;
  launchWindow (VStr "/") true false (Some w).

Definition on_crashed (event : string) : M unit :=
  log Error (MsgCrashed event).

Definition on_unresponsive (event : string) : M unit :=
  log Error (MsgUnresponsive event).

Definition on_resize (width height : Z) : M unit :=
  store_set "window.width" (VNum width);;
  store_set "window.height" (VNum height).

(** The [before-quit] listeners: every window constructed so far has one,
    and each removes all [close] listeners of its window. *)
Definition on_before_quit : M unit :=
  modify (with_closeL (λ _, ∅)).

(** The listener of the [ipfsd] message, from the point where
    [ctx.getIpfsd(true)] has given its answer: [None] is a falsy answer,
    [Some a] an object whose [apiAddr] is [a]. *)
Definition on_ipfsd (ipfsd : option value) : M unit :=
  remembered ← gets apiAddress;
  match ipfsd with
  | Some apiAddr =>
      if negb (strict_eq apiAddr remembered) then
        modify (with_apiAddress apiAddr);;
        modify (with_url (searchParams_set "api" apiAddr));;
        updateLanguage;;
        ow ← gets window;
        match ow with
        | Some w => loadURL (Some w)
        | None => mret ()
        end
      else mret ()
  | None => mret ()
  end.

(** The listener of the [config.get] message. *)
Definition on_config_get : M unit :=
  ow ← gets window;
  match ow with
  | Some w => config ← gets store; method (Some w) (λ w, ESend w "config.changed" config)
  | None => mret ()
  end.

(** The callback handed to [createToggler]. *)
Definition on_toggle (newValue : value) : M unit :=
  store_set CONFIG_KEY newValue.

(** The body of the exported function, before it returns: the first-run
    default, then the [URL] object and the two module variables. *)
Definition init (countlyDeviceId : value) (persisted : gmap string value) : State :=
  let store :=
    if strict_eq (store_lookup persisted CONFIG_KEY VNull) VNull
    then <[CONFIG_KEY := VBool true]> persisted
    else persisted in
  let url := mkURL None [] in                                (* new URL('/', 'webui://-') *)
  let url := set_hash "/blank" url in
  let url := searchParams_set "deviceId" countlyDeviceId url in
  mkState store url None VNull 0 ∅ ∅ ∅ ∅ [].

(** The function the module returns, run by the application at start-up. *)
Definition startup : M unit :=
  enabled ← store_get CONFIG_KEY VUndefined;
  if truthy enabled then launchWindow (VStr "/") true false None
  else mret ().

(* ===================================================================== *)
(** ** Events *)
(* ===================================================================== *)

(** What can happen to the module once it is set up: calls through [ctx],
    messages, events of the runtime on a window, and a write to the shared
    settings store by the rest of the application ([EvStoreSet], for
    instance [store.set('language', ...)]).  (The two header
    interceptors do not touch the state: they are the functions
    [onBeforeSendHeaders] and [onHeadersReceived] above.) *)
Inductive event :=
  | EvStartup
  | EvGetWebUI
  | EvLaunchWebUI (path : value) (focus forceRefresh : bool)
  | EvToggle (newValue : value)
  | EvIpfsd (ipfsd : option value)
  | EvConfigGet
  | EvBeforeQuit
  | EvReadyToShow (w : win)
  | EvClose (w : win)
  | EvCrashed (w : win) (ev : string)
  | EvUnresponsive (w : win) (ev : string)
  | EvResize (w : win) (width height : Z)
  | EvStoreSet (key : string) (newValue : value).

(** The runtime raises window events on windows that exist, and calls the
    listeners registered for them; a [once] listener is removed before it
    runs.  A [close] that no listener prevents destroys the window. *)
Definition dispatch (e : event) : M unit :=
  match e with
  | EvStartup => startup
  | EvGetWebUI => getWebUI
  | EvLaunchWebUI path focus forceRefresh => launchWindow path focus forceRefresh None
  | EvToggle newValue => on_toggle newValue
  | EvIpfsd ipfsd => on_ipfsd ipfsd
  | EvConfigGet => on_config_get
  | EvBeforeQuit => on_before_quit
  | EvReadyToShow w =>
      armed ← gets (λ s, bool_decide (w ∈ live s) && bool_decide (w ∈ readyL s));
      when armed (modify (with_readyL (λ l, l ∖ {[w]}));; on_ready_to_show w)
  | EvClose w =>
      alive ← gets (λ s, bool_decide (w ∈ live s));
      when alive (
        armed ← gets (λ s, bool_decide (w ∈ closeL s));
        when armed (modify (with_closeL (λ l, l ∖ {[w]}));; uncaught on_close);;
        modify (with_destroyed w))
  | EvCrashed w ev =>
      alive ← gets (λ s, bool_decide (w ∈ live s));
      when alive (on_crashed ev)
  | EvUnresponsive w ev =>
      alive ← gets (λ s, bool_decide (w ∈ live s));
      when alive (on_unresponsive ev)
  | EvResize w width height =>
      alive ← gets (λ s, bool_decide (w ∈ live s));
      when alive (on_resize width height)
  | EvStoreSet key newValue => store_set key newValue
  end.

Definition step (s : State) (e : event) : State := exec (dispatch e) s.

Definition run (s : State) (es : list event) : State := foldl step s es.

(** The states the module can be in. *)
Definition reachable (s : State) : Prop :=
  ∃ countlyDeviceId persisted es, s = run (init countlyDeviceId persisted) es.

(* ===================================================================== *)
(** ** Vocabulary of the statements *)
(* ===================================================================== *)

(** [preserves R c]: whatever the state, running [c] leaves a state related
    to it by [R], also when [c] throws half-way. *)
Definition preserves {A} (R : relation State) (c : M A) : Prop :=
  ∀ s, R s (c s).1.

(** Everything but the [URL] object, the continuations and the calls made. *)
Definition same_runtime : relation State := λ s s',
  store s' = store s ∧ window s' = window s ∧ apiAddress s' = apiAddress s ∧
  created s' = created s ∧ live s' = live s ∧ closeL s' = closeL s ∧
  readyL s' = readyL s.

(** The same, and the continuations too. *)
Definition same_control : relation State := λ s s',
  same_runtime s s' ∧ pending s' = pending s.

(** The state [getWindow] leaves when it has to construct the window. *)
Definition opened (s : State) : State :=
  let w := created s in
  let href :=
    searchParams_set "lng" (store_lookup (store s) "language" VUndefined) (url s) in
  mkState (store s) href (Some w) (apiAddress s) (S w)
          ({[w]} ∪ live s) ({[w]} ∪ closeL s) ({[w]} ∪ readyL s) (pending s)
          (out s ++ [ENewWindow w; ELoadURL w href])%list.

(** Every window that exists is the one the module variable refers to, and
    window objects are numbered below [created]. *)
Definition single (s : State) : Prop :=
  (∀ w, w ∈ live s → window s = Some w) ∧
  (∀ w, w ∈ live s → w < created s) ∧
  (∀ w, window s = Some w → w < created s).

Definition keeps_single : relation State := λ s s', single s → single s'.

(** The [URL] object once a new address [a] has been taken in. *)
Definition readdressed (a : value) (s : State) : URL :=
  searchParams_set "lng" (store_lookup (store s) "language" VUndefined)
    (searchParams_set "api" a (url s)).

(** No address: [null], [undefined], or the empty string. *)
Definition absent (v : value) : Prop :=
  v = VUndefined ∨ v = VNull ∨ v = VStr "".

(** A converter and an origin getter that know one address, for running
    the interceptors on an example. *)
Definition sample_toUri (v : value) : outcome string :=
  if String.eqb (ToString v) "/ip4/127.0.0.1/tcp/5001"
  then Ok "http://127.0.0.1:5001/"
  else Throw "Error: unsupported multiaddr".

Definition sample_origin (uri : string) : outcome string :=
  if String.eqb uri "http://127.0.0.1:5001/"
  then Ok "http://127.0.0.1:5001"
  else Throw "TypeError: Invalid URL".

(** While the reference is set, no window is constructed and the reference
    stays set. *)
Definition keeps_window : relation State := λ s s',
  window s ≠ None → created s' = created s ∧ window s' ≠ None.

(** The [lng] parameter of [u] is the stored locale [language], or it is the
    value [carried] by the [URL] object since [updateLanguage] last ran. *)
Definition lng_ok (language : value) (carried : option string) (u : URL) : Prop :=
  searchParams_get "lng" u = Some (ToString language) ∨
  (is_Some (searchParams_get "lng" u) ∧ searchParams_get "lng" u = carried).

(** The query of a loaded URL: [deviceId] is the device identifier as the
    page receives it, [a] the remembered address. *)
Definition query_ok (deviceId : string) (language : value) (carried : option string)
    (a : value) (href : URL) : Prop :=
  searchParams_get "deviceId" href = Some deviceId ∧
  lng_ok language carried href ∧
  (a ≠ VNull → searchParams_get "api" href = Some (ToString a)).

Definition load_ok (deviceId : string) (language : value) (carried : option string)
    (a : value) (e : effect) : Prop :=
  match e with
  | ELoadURL _ href => query_ok deviceId language carried a href
  | _ => True
  end.

(** What holds of the [URL] object while one event is handled, [language]
    being the locale in the store: the device identifier is there, the
    locale parameter is there as soon as a window exists, and the address is
    there as soon as one is remembered. *)
Definition url_ok (deviceId : string) (language : value) (carried : option string)
    (s : State) : Prop :=
  searchParams_get "deviceId" (url s) = Some deviceId ∧
  store_lookup (store s) "language" VUndefined = language ∧
  (∀ w, w ∈ live s → lng_ok language carried (url s)) ∧
  (apiAddress s ≠ VNull →
     searchParams_get "api" (url s) = Some (ToString (apiAddress s))).

(** Code that keeps the remembered address: it keeps [url_ok], and what it
    loads has a good query. *)
Definition contract (deviceId : string) (language : value) (carried : option string)
  : relation State := λ s s',
  url_ok deviceId language carried s →
  url_ok deviceId language carried s' ∧ apiAddress s' = apiAddress s ∧
  ∃ new, out s' = (out s ++ new)%list ∧
         Forall (load_ok deviceId language carried (apiAddress s)) new.



(** The fragment the [URL] object holds after the calls [tr], when it held
    [frag] before: each navigation is logged right before it sets the hash. *)
Fixpoint navigated (frag : option string) (tr : list effect) : option string :=
  match tr with
  | [] => frag
  | ELog _ (MsgNavigate path) :: tr => navigated (strip_hash path) tr
  | _ :: tr => navigated frag tr
  end.

(** Every URL loaded in [tr] has, as its fragment, the path of the latest
    navigation before it, or [frag] when there was none. *)
Fixpoint follows_navigation (frag : option string) (tr : list effect) : Prop :=
  match tr with
  | [] => True
  | ELog _ (MsgNavigate path) :: tr => follows_navigation (strip_hash path) tr
  | ELoadURL _ href :: tr => fragment href = frag ∧ follows_navigation frag tr
  | _ :: tr => follows_navigation frag tr
  end.

Definition nav_ok (s : State) : Prop :=
  follows_navigation (Some "/blank") (out s) ∧
  navigated (Some "/blank") (out s) = fragment (url s).

Definition keeps_nav : relation State := λ s s', nav_ok s → nav_ok s'.

(** A call that is neither a navigation log nor [loadURL]. *)
Definition plain_call (e : effect) : Prop :=
  match e with
  | ELog _ (MsgNavigate _) | ELoadURL _ _ => False
  | _ => True
  end.

(** The names of the query, in order. *)
Definition query_names (u : URL) : list string := (searchParams u).*1.

(** The query starts with [deviceId]; [lng] and [api] follow, each at most
    once, in the order in which they were first set. *)
Definition query_shape (u : URL) : Prop :=
  query_names u ∈
    [ ["deviceId"]; ["deviceId"; "lng"]; ["deviceId"; "api"];
      ["deviceId"; "lng"; "api"]; ["deviceId"; "api"; "lng"] ].

Definition keeps_shape : relation State := λ s s',
  query_shape (url s) → query_shape (url s').

(** The [api] parameter mirrors the remembered address: neither is there, or
    the parameter is the address as a string. *)
Definition api_mirrors (s : State) : Prop :=
  (apiAddress s = VNull ∧ searchParams_get "api" (url s) = None) ∨
  searchParams_get "api" (url s) = Some (ToString (apiAddress s)).

Definition keeps_mirror : relation State := λ s s', api_mirrors s → api_mirrors s'.

(* ===================================================================== *)
(** ** Reasoning about code in [M] *)
(* ===================================================================== *)

Section Preserves.
Context (R : relation State) `{!PreOrder R}.

Lemma preserves_ret {A} (a : A) : preserves R (mret a).
Proof. intros s. reflexivity. Qed.

Lemma preserves_gets {A} (f : State → A) : preserves R (gets f).
Proof. intros s. reflexivity. Qed.

Lemma preserves_throw {A} msg : preserves R (throw (A := A) msg).
Proof. intros s. reflexivity. Qed.

Lemma preserves_modify f : (∀ s, R s (f s)) → preserves R (modify f).
Proof. intros H s. apply H. Qed.

Lemma preserves_bind {A B} (c : M A) (f : A → M B) :
  preserves R c → (∀ a, preserves R (f a)) → preserves R (c ≫= f).
Proof.
  intros Hc Hf s. unfold mbind, M_bind.
  specialize (Hc s). destruct (c s) as [s' [a|msg]]; simpl in *; [|done].
  etransitivity; [exact Hc | apply Hf].
Qed.

Lemma preserves_when b c : preserves R c → preserves R (when b c).
Proof. destruct b; [done | intros _; apply preserves_ret]. Qed.

Lemma preserves_uncaught c : preserves R c → preserves R (uncaught c).
Proof. intros H s. apply H. Qed.

Lemma preserves_store_get k d : preserves R (store_get k d).
Proof. apply preserves_gets. Qed.

Lemma preserves_store_set k v :
  (∀ s, R s (with_store (insert k v) s)) → preserves R (store_set k v).
Proof.
  intros H. destruct v; first [apply preserves_throw | by apply preserves_modify].
Qed.

Lemma preserves_method ow call :
  (∀ w s, w ∈ live s → R s (with_out (λ l, (l ++ [call w])%list) s)) →
  preserves R (method ow call).
Proof.
  intros H. destruct ow as [w|]; [|apply preserves_throw].
  intros s. unfold method, mbind, M_bind, gets. simpl.
  case_bool_decide; simpl; [by apply H | reflexivity].
Qed.
End Preserves.

Lemma preserves_weaken {A} (R R' : relation State) (c : M A) :
  (∀ s s', R s s' → R' s s') → preserves R c → preserves R' c.
Proof. intros H Hc s. apply H, Hc. Qed.

(** Structural steps shared by the proofs below. *)
Ltac pres_order := lazymatch goal with |- PreOrder _ => typeclasses eauto | _ => idtac end.

Ltac pres_step :=
  lazymatch goal with
  | |- preserves _ (mret _) => apply preserves_ret
  | |- preserves _ (gets _) => apply preserves_gets
  | |- preserves _ (throw _) => apply preserves_throw
  | |- preserves _ (store_get _ _) => apply preserves_store_get
  | |- preserves _ (when _ _) => apply preserves_when
  | |- preserves _ (uncaught _) => apply preserves_uncaught
  | |- preserves _ (_ ≫= _) => apply preserves_bind; [ .. | intros ? ]
  | |- preserves _ (modify _) => apply preserves_modify; [ .. | intros ? ]
  | |- preserves _ (emit _) => apply preserves_modify; [ .. | intros ? ]
  | |- preserves _ (log _ _) => apply preserves_modify; [ .. | intros ? ]
  | |- preserves _ (method _ _) => apply preserves_method; [ .. | intros ? ? ? ]
  | |- preserves _ (store_set _ _) => apply preserves_store_set; [ .. | intros ? ]
  | |- preserves _ (if ?b then _ else _) => destruct b
  | |- preserves _ (match ?x with Some _ => _ | None => _ end) => destruct x
  | |- preserves _ (match ?x with KCaller => _ | KLaunch _ _ _ _ => _ end) => destruct x
  | |- preserves _ (match ?x with Resolved _ => _ | AwaitReady _ => _ end) => destruct x
  end; pres_order.

(** [pres tac]: take the code apart, and leave the elementary steps (a
    state update, an outgoing call) to [tac]. *)
Tactic Notation "pres" tactic3(tac) := repeat (tac || pres_step).

(* ===================================================================== *)
(** ** What navigation leaves alone *)
(* ===================================================================== *)

Global Instance same_runtime_preorder : PreOrder same_runtime.
Proof.
  split.
  - intros s. by repeat split.
  - intros s1 s2 s3 H12 H23. unfold same_runtime in *.
    destruct_and!. repeat split; congruence.
Qed.

Global Instance same_control_preorder : PreOrder same_control.
Proof.
  split.
  - intros s. split; reflexivity.
  - intros s1 s2 s3 [H12 P12] [H23 P23]. split; [by etransitivity | congruence].
Qed.

Lemma loadURL_same_control ow : preserves same_control (loadURL ow).
Proof. unfold loadURL. pres done. Qed.

Lemma launchWindow_body_same_control ow path focus forceRefresh :
  preserves same_control (launchWindow_body ow path focus forceRefresh).
Proof.
  unfold launchWindow_body.
  pres first [done | apply loadURL_same_control].
Qed.

Lemma launchWindow_body_same_runtime ow path focus forceRefresh :
  preserves same_runtime (launchWindow_body ow path focus forceRefresh).
Proof.
  eapply preserves_weaken, launchWindow_body_same_control. by intros ?? [? _].
Qed.

Lemma settle_same_runtime fuel : ∀ w, preserves same_runtime (settle fuel w).
Proof.
  induction fuel as [|fuel IH]; intros w; simpl;
    pres first [done | apply launchWindow_body_same_runtime | apply IH].
Qed.

Lemma resolve_same_runtime w : preserves same_runtime (resolve w).
Proof. unfold resolve. pres apply settle_same_runtime. Qed.

(* ===================================================================== *)
(** ** [getWindow], case by case *)
(* ===================================================================== *)

(** Run straight-line code on a symbolic state. *)
Ltac run_M :=
  unfold loadURL, method, updateLanguage, createWindow, log, emit, store_get,
    when, uncaught, modify, gets, throw, mbind, M_bind, mret, M_ret;
  simpl.

Lemma getWindow_Some s w :
  window s = Some w → getWindow s = (s, Ok (Resolved w)).
Proof. intros H. unfold getWindow, mbind, M_bind, gets. simpl. by rewrite H. Qed.

Lemma getWindow_None s :
  window s = None → getWindow s = (opened s, Ok (AwaitReady (created s))).
Proof.
  intros H. unfold getWindow. run_M. rewrite H. simpl.
  rewrite bool_decide_eq_true_2 by set_solver. simpl.
  unfold opened, with_out. simpl. by rewrite <- app_assoc.
Qed.

Lemma launchWindow_Some s w path focus forceRefresh andThen :
  window s = Some w →
  launchWindow path focus forceRefresh andThen s =
  (launchWindow_body (Some w) path focus forceRefresh;;
   match andThen with Some w0 => resolve w0 | None => mret () end) s.
Proof.
  intros H. unfold launchWindow. unfold mbind at 1. unfold M_bind at 1.
  by rewrite (getWindow_Some _ _ H).
Qed.

Lemma launchWindow_None s path focus forceRefresh andThen :
  window s = None →
  launchWindow path focus forceRefresh andThen s =
  (with_pending (insert (created s) (KLaunch path focus forceRefresh andThen)) (opened s),
   Ok ()).
Proof.
  intros H. unfold launchWindow. unfold mbind at 1. unfold M_bind at 1.
  by rewrite (getWindow_None _ H).
Qed.

(* ===================================================================== *)
(** ** One window *)
(* ===================================================================== *)

Global Instance keeps_single_preorder : PreOrder keeps_single.
Proof.
  split; [intros s H; exact H | intros s1 s2 s3 H12 H23 H; apply H23, H12, H].
Qed.

Lemma same_runtime_single s s' : same_runtime s s' → keeps_single s s'.
Proof.
  unfold same_runtime, keeps_single, single. intros (_ & Hw & _ & Hc & Hl & _) H.
  by rewrite Hw, Hc, Hl.
Qed.

Lemma opened_single s : window s = None → single s → single (opened s).
Proof.
  intros HN (H1 & H2 & H3). unfold single, opened; simpl.
  assert (live s = ∅) as ->.
  { apply set_eq. intros w. split; [|set_solver]. intros Hw.
    apply H1 in Hw. congruence. }
  repeat split; intros w.
  - rewrite elem_of_union, elem_of_singleton, elem_of_empty. by intros [-> | []].
  - rewrite elem_of_union, elem_of_singleton, elem_of_empty. intros [-> | []]. lia.
  - intros [= <-]. lia.
Qed.

Lemma getWindow_single : preserves keeps_single getWindow.
Proof.
  intros s H. destruct (window s) as [w|] eqn:E.
  - by rewrite (getWindow_Some _ _ E).
  - rewrite (getWindow_None _ E). by apply opened_single.
Qed.

(** Steps that leave windows alone keep the invariant. *)
Ltac single_leaf :=
  first
    [ apply getWindow_single
    | eapply preserves_weaken;
        [ exact same_runtime_single
        | first [ apply launchWindow_body_same_runtime
                | apply resolve_same_runtime ] ]
    | apply same_runtime_single; by repeat split
    | exact (λ H, H) ].

Lemma launchWindow_single path focus forceRefresh andThen :
  preserves keeps_single (launchWindow path focus forceRefresh andThen).
Proof. unfold launchWindow. pres single_leaf. Qed.

Lemma close_single s w :
  single s → single (step s (EvClose w)).
Proof.
  intros (H1 & H2 & H3).
  assert (∀ w', w' ∈ live s ∖ {[w]} → w ∈ live s → False) as Hgone.
  { intros w' Hw' Hw. apply H1 in Hw. set_unfold. destruct Hw' as [Hw' ?].
    apply H1 in Hw'. congruence. }
  unfold step, exec, dispatch, on_close, uncaught, method, when, emit, modify, gets,
    mbind, M_bind; simpl.
  case_bool_decide as Hl; simpl; [|done].
  case_bool_decide as Hc; simpl.
  - destruct (window s) as [m|] eqn:E; simpl;
      [case_bool_decide; simpl|];
      (split; [|split]; simpl; [intros w' Hw'; by destruct (Hgone w') | | done]);
      intros w' Hw'; apply H2; set_unfold; tauto.
  - split; [|split]; simpl; [intros w' Hw'; by destruct (Hgone w') | | done].
    intros w' Hw'; apply H2; set_unfold; tauto.
Qed.

Lemma step_single s e : single s → single (step s e).
Proof.
  destruct e; try (by apply close_single);
    revert s;
    match goal with
    | |- ∀ s, single s → single (step s ?e) => change (preserves keeps_single (dispatch e))
    end;
    unfold dispatch, startup, getWebUI, on_toggle, on_ipfsd, on_config_get,
      on_before_quit, on_ready_to_show, on_crashed, on_unresponsive, on_resize,
      updateLanguage, loadURL;
    pres first [apply launchWindow_single | single_leaf].
Qed.

Lemma init_single countlyDeviceId persisted : single (init countlyDeviceId persisted).
Proof. unfold init, single; simpl. repeat split; intros w; set_solver. Qed.

Lemma run_single s es : single s → single (run s es).
Proof.
  revert s. induction es as [|e es IH]; intros s H; simpl; [done|].
  apply IH. by apply step_single.
Qed.

Lemma reachable_single s : reachable s → single s.
Proof. intros (d & p & es & ->). apply run_single, init_single. Qed.

(* ===================================================================== *)
(** ** Query parameters *)
(* ===================================================================== *)

Lemma sp_get_remove_ne k k' l : k ≠ k' → sp_get k' (sp_remove k l) = sp_get k' l.
Proof.
  intros Hne. induction l as [|[k0 v0] l IH]; simpl; [done|].
  unfold sp_remove in *. rewrite filter_cons. simpl.
  destruct (String.eqb_spec k0 k) as [->|Hk]; simpl.
  - destruct (String.eqb_spec k k'); [done | exact IH].
  - destruct (String.eqb_spec k0 k'); [done | exact IH].
Qed.

Lemma sp_get_set_eq k v l : sp_get k (sp_set k v l) = Some v.
Proof.
  induction l as [|[k0 v0] l IH]; simpl.
  - by rewrite String.eqb_refl.
  - destruct (String.eqb_spec k0 k) as [->|Hk]; simpl.
    + by rewrite String.eqb_refl.
    + by destruct (String.eqb_spec k0 k).
Qed.

Lemma sp_get_set_ne k k' v l : k ≠ k' → sp_get k' (sp_set k v l) = sp_get k' l.
Proof.
  intros Hne. induction l as [|[k0 v0] l IH]; simpl.
  - by destruct (String.eqb_spec k k').
  - destruct (String.eqb_spec k0 k) as [->|Hk]; simpl.
    + destruct (String.eqb_spec k k'); [done|]. by apply sp_get_remove_ne.
    + destruct (String.eqb_spec k0 k'); [done | exact IH].
Qed.

Lemma searchParams_get_set_eq k v u :
  searchParams_get k (searchParams_set k v u) = Some (ToString v).
Proof. apply sp_get_set_eq. Qed.

Lemma searchParams_get_set_ne k k' v u :
  k ≠ k' → searchParams_get k' (searchParams_set k v u) = searchParams_get k' u.
Proof. apply sp_get_set_ne. Qed.

(* ===================================================================== *)
(** ** The [ipfsd] message *)
(* ===================================================================== *)

Lemma readdressed_api a s :
  searchParams_get "api" (readdressed a s) = Some (ToString a).
Proof.
  unfold readdressed. rewrite searchParams_get_set_ne by done.
  apply searchParams_get_set_eq.
Qed.

(** C4, as amended.  When the [ipfsd] message brings an address that is not
    strictly equal to the remembered one, the new address is remembered, the
    [api] query parameter of the [URL] object becomes that address (and
    [lng] is refreshed), and a window that exists is loaded with the updated
    URL; with no window, nothing is loaded. *)
Theorem ipfsd_new_address (s : State) (a : value) :
  strict_eq a (apiAddress s) = false →
  let s' := step s (EvIpfsd (Some a)) in
  apiAddress s' = a ∧
  url s' = readdressed a s ∧
  searchParams_get "api" (url s') = Some (ToString a) ∧
  (∀ w, window s = Some w → w ∈ live s →
        out s' = (out s ++ [ELoadURL w (url s')])%list) ∧
  (window s = None → out s' = out s).
Proof.
  intros Hne. unfold step, exec, dispatch, on_ipfsd. run_M. rewrite Hne. simpl.
  destruct (window s) as [w|] eqn:Hw; simpl.
  - case_bool_decide as Hl; simpl;
      (split; [done|]; split; [done|]; split; [apply readdressed_api|]);
      (split; [|done]); intros w' [= <-] Hl'; done.
  - split; [done|]. split; [done|]. split; [apply readdressed_api|]. done.
Qed.

Lemma ipfsd_new_address_witness :
  let s := opened (init (VStr "device") ∅) in
  let a := VStr "/ip4/127.0.0.1/tcp/5001" in
  apiAddress (step s (EvIpfsd (Some a))) = a ∧
  searchParams_get "api" (url (step s (EvIpfsd (Some a)))) = Some "/ip4/127.0.0.1/tcp/5001".
Proof.
  intros s a.
  destruct (ipfsd_new_address s a eq_refl) as (H1 & _ & H3 & _).
  split; [exact H1 | exact H3].
Defined.

(** C4 as stated fails where no window exists: the address is new, the
    [URL] object is updated, and no page is loaded. *)
Lemma ipfsd_new_address_without_window :
  let s := init (VStr "device") ∅ in
  let a := VStr "/ip4/127.0.0.1/tcp/5001" in
  strict_eq a (apiAddress s) = false ∧
  searchParams_get "api" (url (step s (EvIpfsd (Some a)))) = Some "/ip4/127.0.0.1/tcp/5001" ∧
  out (step s (EvIpfsd (Some a))) = [].
Proof. by vm_compute. Qed.

Lemma on_ipfsd_same s a :
  strict_eq a (apiAddress s) = true → on_ipfsd (Some a) s = (s, Ok ()).
Proof. intros Heq. unfold on_ipfsd. run_M. by rewrite Heq. Qed.

(** C7, as amended.  When the [ipfsd] message brings no daemon, or an
    address strictly equal ([===]: for a [Multiaddr] object, the very same
    object) to the remembered one, the listener changes nothing: the [URL]
    object, the remembered address, the window and the calls made so far
    are as before, so nothing is loaded. *)
Theorem ipfsd_same_address (s : State) (ipfsd : option value) :
  (ipfsd = None ∨ ∃ a, ipfsd = Some a ∧ strict_eq a (apiAddress s) = true) →
  on_ipfsd ipfsd s = (s, Ok ()) ∧ step s (EvIpfsd ipfsd) = s.
Proof.
  intros [-> | (a & -> & Heq)]; unfold step, exec, dispatch.
  - done.
  - by rewrite on_ipfsd_same.
Qed.

Lemma ipfsd_same_address_witness :
  let a := VObj 7 "/ip4/127.0.0.1/tcp/5001" in
  let s := step (opened (init (VStr "device") ∅)) (EvIpfsd (Some a)) in
  step s (EvIpfsd (Some a)) = s ∧ step s (EvIpfsd None) = s.
Proof.
  intros a s. split.
  - apply (ipfsd_same_address s (Some a)). right. exists a. split; reflexivity.
  - apply (ipfsd_same_address s None). by left.
Defined.

(** C7 as stated fails when the same address comes in a fresh [Multiaddr]
    object (the daemon was restarted): the address equals the remembered
    one as text, the objects differ, and the page is loaded again. *)
Lemma ipfsd_same_text_fresh_object_reloads :
  let remembered := VObj 7 "/ip4/127.0.0.1/tcp/5001" in
  let reported := VObj 8 "/ip4/127.0.0.1/tcp/5001" in
  let s := step (opened (init (VStr "device") ∅)) (EvIpfsd (Some remembered)) in
  apiAddress s = remembered ∧
  ToString reported = ToString (apiAddress s) ∧
  strict_eq reported (apiAddress s) = false ∧
  out (step s (EvIpfsd (Some reported))) = (out s ++ [ELoadURL 0 (url s)])%list ∧
  apiAddress (step s (EvIpfsd (Some reported))) ≠ apiAddress s.
Proof. repeat split; by vm_compute. Qed.

(* ===================================================================== *)
(** ** Crashed and unresponsive content *)
(* ===================================================================== *)

Example crashed_line : render (MsgCrashed "[object Object]") = "[web ui] crashed: [object Object]".
Proof. reflexivity. Qed.

(** C8.  The [crashed] and [unresponsive] listeners write one error line to
    the log and return normally; the window reference, the [URL] object and
    every other part of the state stay as they are. *)
Theorem crashed_unresponsive_only_log (s : State) (w : win) (ev : string) :
  on_crashed ev s = (with_out (λ l, l ++ [ELog Error (MsgCrashed ev)])%list s, Ok ()) ∧
  on_unresponsive ev s =
    (with_out (λ l, l ++ [ELog Error (MsgUnresponsive ev)])%list s, Ok ()) ∧
  (∀ e, e = EvCrashed w ev ∨ e = EvUnresponsive w ev →
     let s' := step s e in
     store s' = store s ∧ url s' = url s ∧ window s' = window s ∧
     apiAddress s' = apiAddress s ∧ created s' = created s ∧ live s' = live s ∧
     closeL s' = closeL s ∧ readyL s' = readyL s ∧ pending s' = pending s ∧
     ∃ logged, out s' = (out s ++ logged)%list ∧
               ∀ x, x ∈ logged → ∃ m, x = ELog Error m) .
Proof.
  split; [done|]. split; [done|].
  intros e [-> | ->]; unfold step, exec, dispatch, on_crashed, on_unresponsive;
    run_M; case_bool_decide; simpl; repeat (split; [done|]).
  - eexists [_]. split; [done|]. intros x ->%list_elem_of_singleton. by eexists.
  - exists []. split; [by rewrite app_nil_r|]. intros x Hx. by apply elem_of_nil in Hx.
  - eexists [_]. split; [done|]. intros x ->%list_elem_of_singleton. by eexists.
  - exists []. split; [by rewrite app_nil_r|]. intros x Hx. by apply elem_of_nil in Hx.
Qed.

Lemma crashed_unresponsive_only_log_witness :
  let s := opened (init (VStr "device") ∅) in
  window (step s (EvCrashed 0 "gone")) = Some 0 ∧
  url (step s (EvUnresponsive 0 "hung")) = url s.
Proof.
  intros s. split.
  - apply (crashed_unresponsive_only_log s 0 "gone"). by left.
  - apply (crashed_unresponsive_only_log s 0 "hung"). by right.
Defined.

(* ===================================================================== *)
(** ** Closing the window *)
(* ===================================================================== *)

Lemma close_armed_window s w :
  w ∈ live s → w ∈ closeL s →
  window (step s (EvClose w)) = None ∧
  live (step s (EvClose w)) = live s ∖ {[w]} ∧
  created (step s (EvClose w)) = created s.
Proof.
  intros Hl Hc. unfold step, exec, dispatch, on_close. run_M.
  rewrite !bool_decide_eq_true_2 by done. simpl.
  destruct (window s) as [m|]; simpl; [case_bool_decide; simpl|]; done.
Qed.

(** C9, as amended.  When the [close] event of the window fires while the
    listener that [getWindow] registered is still in place, the module's
    window reference is null afterwards and the closed window is gone, so
    the next [getWindow] constructs a window, a new object, and does not
    return the closed one. *)
Theorem close_then_fresh_window (s : State) (w : win) :
  reachable s → w ∈ live s → w ∈ closeL s →
  let s' := step s (EvClose w) in
  window s' = None ∧ (w ∉ live s') ∧
  ∃ w', getWindow s' = (opened s', Ok (AwaitReady w')) ∧
        w' ≠ w ∧ window (opened s') = Some w' ∧ w' ∈ live (opened s').
Proof.
  intros Hr Hl Hc. destruct (close_armed_window s w Hl Hc) as (Hw & Hl' & Hcr).
  simpl. split; [done|]. split; [rewrite Hl'; set_unfold; tauto|].
  exists (created (step s (EvClose w))). split; [by apply getWindow_None|].
  split; [|split; [done | simpl; set_unfold; tauto]].
  rewrite Hcr. apply reachable_single in Hr as (_ & Hlt & _).
  specialize (Hlt w Hl). lia.
Qed.

Lemma close_then_fresh_window_witness :
  let s := run (init (VStr "device") ∅) [EvStartup; EvReadyToShow 0] in
  window (step s (EvClose 0)) = None ∧ 0 ∉ live (step s (EvClose 0)).
Proof.
  intros s.
  assert (reachable s) as Hr by (by exists (VStr "device"), ∅, [EvStartup; EvReadyToShow 0]).
  assert (0 ∈ live s) as Hl by (by vm_compute).
  assert (0 ∈ closeL s) as Hc by (by vm_compute).
  destruct (close_then_fresh_window s 0 Hr Hl Hc) as (H1 & H2 & _).
  split; [exact H1 | exact H2].
Defined.

(** C9 as stated fails once [before-quit] has removed the listener: the
    [close] event fires, the window is destroyed, the reference still names
    it, and [getWindow] returns that closed window. *)
Lemma close_after_before_quit_keeps_reference :
  let s := run (init (VStr "device") ∅) [EvStartup; EvBeforeQuit] in
  bool_decide (0 ∈ live s) = true ∧
  window (step s (EvClose 0)) = Some 0 ∧
  bool_decide (0 ∈ live (step s (EvClose 0))) = false ∧
  (getWindow (step s (EvClose 0))).2 = Ok (Resolved 0).
Proof. by vm_compute. Qed.

(* ===================================================================== *)
(** ** First run and start-up *)
(* ===================================================================== *)

Lemma launchWindow_window path focus forceRefresh andThen s :
  window (launchWindow path focus forceRefresh andThen s).1 ≠ None.
Proof.
  destruct (window s) as [w|] eqn:E.
  - rewrite (launchWindow_Some _ w) by done.
    assert (preserves same_runtime
              (launchWindow_body (Some w) path focus forceRefresh;;
               match andThen with Some w0 => resolve w0 | None => mret () end)) as H.
    { pres first [apply launchWindow_body_same_runtime | apply resolve_same_runtime]. }
    destruct (H s) as (_ & -> & _). by rewrite E.
  - by rewrite launchWindow_None.
Qed.

(** C10.  The set-up turns a missing (or null) [openWebUIAtLaunch] setting
    into [true] and leaves a stored one alone.  The start-up function reads
    the setting when it runs: if it is truthy it is [launchWindow('/')],
    after which there is a window; if not it does nothing at all. *)
Theorem first_run_and_startup (countlyDeviceId : value) (persisted : gmap string value) (s : State) :
  (persisted !! CONFIG_KEY = None ∨ persisted !! CONFIG_KEY = Some VNull →
     store (init countlyDeviceId persisted) !! CONFIG_KEY = Some (VBool true)) ∧
  (truthy (store_lookup (store s) CONFIG_KEY VUndefined) = true →
     startup s = launchWindow (VStr "/") true false None s ∧
     window (exec startup s) ≠ None) ∧
  (truthy (store_lookup (store s) CONFIG_KEY VUndefined) = false →
     startup s = (s, Ok ())).
Proof.
  split; [|split].
  - intros H. unfold init, store_lookup; simpl.
    destruct H as [-> | ->]; simpl; apply lookup_insert_eq.
  - intros H. assert (startup s = launchWindow (VStr "/") true false None s) as Heq.
    { unfold startup. run_M. by rewrite H. }
    split; [done|]. unfold exec. rewrite Heq. apply launchWindow_window.
  - intros H. unfold startup. run_M. by rewrite H.
Qed.

Lemma first_run_and_startup_witness :
  store (init (VStr "device") ∅) !! CONFIG_KEY = Some (VBool true) ∧
  window (exec startup (init (VStr "device") ∅)) ≠ None ∧
  startup (init (VStr "device") {[CONFIG_KEY := VBool false]}) =
    (init (VStr "device") {[CONFIG_KEY := VBool false]}, Ok ()).
Proof.
  split; [|split].
  - apply (first_run_and_startup (VStr "device") ∅ (init (VStr "device") ∅)).
    left. reflexivity.
  - apply (first_run_and_startup (VStr "device") ∅ (init (VStr "device") ∅)).
    reflexivity.
  - apply (first_run_and_startup (VStr "device") ∅
             (init (VStr "device") {[CONFIG_KEY := VBool false]})).
    reflexivity.
Defined.

(* ===================================================================== *)
(** ** The Origin of the API *)
(* ===================================================================== *)

(** C1.  [apiOrigin] returns the string [null] when it is given no address
    ([null], [undefined] or the empty string), and for an address (any
    truthy argument) it returns the origin of the URI that [toUri] derives
    from it assuming HTTP; it throws when one of the two conversions does. *)
Theorem apiOrigin_spec (toUri : value → outcome string)
    (URL_origin : string → outcome string) (apiMultiaddr : value) :
  (absent apiMultiaddr → apiOrigin toUri URL_origin apiMultiaddr = Ok "null") ∧
  (truthy apiMultiaddr = true →
     apiOrigin toUri URL_origin apiMultiaddr =
     outcome_bind (toUri apiMultiaddr) URL_origin).
Proof.
  split.
  - intros [-> | [-> | ->]]; reflexivity.
  - intros H. unfold apiOrigin. by rewrite H.
Qed.

Lemma apiOrigin_spec_witness :
  apiOrigin sample_toUri sample_origin VNull = Ok "null" ∧
  apiOrigin sample_toUri sample_origin (VObj 7 "/ip4/127.0.0.1/tcp/5001") =
    Ok "http://127.0.0.1:5001".
Proof.
  split.
  - apply (apiOrigin_spec sample_toUri sample_origin VNull). right. left. reflexivity.
  - apply (apiOrigin_spec sample_toUri sample_origin (VObj 7 "/ip4/127.0.0.1/tcp/5001")).
    reflexivity.
Defined.

(** The falsy values that are not addresses ([false], [0], [NaN]) are
    treated as no address too. *)
Lemma apiOrigin_falsy toUri URL_origin v :
  truthy v = false → apiOrigin toUri URL_origin v = Ok "null".
Proof. intros H. unfold apiOrigin. by rewrite H. Qed.

(* ===================================================================== *)
(** ** Outgoing request headers *)
(* ===================================================================== *)

(** C5.  Whenever the [onBeforeSendHeaders] listener answers, the request
    goes on ([cancel] is false) with [Origin] set to [apiOrigin(apiAddress)]
    and [User-Agent] set to the identifier built from the two versions, the
    other headers being kept; it answers exactly when [apiOrigin] returns,
    which it does with [null] as long as no address is remembered. *)
Theorem onBeforeSendHeaders_spec (toUri : value → outcome string)
    (URL_origin : string → outcome string) (VERSION ELECTRON_VERSION : string)
    (apiAddress : value) (headers : gmap string string) :
  let answer :=
    onBeforeSendHeaders toUri URL_origin VERSION ELECTRON_VERSION apiAddress headers in
  match apiOrigin toUri URL_origin apiAddress with
  | Ok origin =>
      ∃ r, answer = Ok r ∧ cancel r = false ∧
           requestHeaders r !! "Origin" = Some origin ∧
           requestHeaders r !! "User-Agent" =
             Some ("ipfs-desktop/" +:+ VERSION +:+ " (Electron " +:+ ELECTRON_VERSION +:+ ")") ∧
           ∀ k, k ≠ "Origin" → k ≠ "User-Agent" → requestHeaders r !! k = headers !! k
  | Throw msg => answer = Throw msg
  end ∧
  (apiAddress = VNull →
     ∃ r, answer = Ok r ∧ cancel r = false ∧ requestHeaders r !! "Origin" = Some "null").
Proof.
  simpl. unfold onBeforeSendHeaders. split.
  - destruct (apiOrigin toUri URL_origin apiAddress) as [origin|msg]; simpl; [|done].
    eexists. split; [done|]. simpl. split; [done|].
    split; [by rewrite lookup_insert_ne, lookup_insert_eq|].
    split; [by rewrite lookup_insert_eq|].
    intros k H1 H2. by rewrite !lookup_insert_ne.
  - intros ->. simpl. eexists. split; [done|]. simpl. split; [done|].
    by rewrite lookup_insert_ne, lookup_insert_eq.
Qed.

Lemma onBeforeSendHeaders_spec_witness :
  ∃ r, onBeforeSendHeaders sample_toUri sample_origin "0.13.2" "9.3.3" VNull
         {["Accept" := "*/*"]} = Ok r ∧
       cancel r = false ∧ requestHeaders r !! "Origin" = Some "null".
Proof.
  apply (onBeforeSendHeaders_spec sample_toUri sample_origin "0.13.2" "9.3.3" VNull
           {["Accept" := "*/*"]}).
  reflexivity.
Defined.

(* ===================================================================== *)
(** ** Incoming response headers *)
(* ===================================================================== *)

(** Under the exact name [Access-Control-Allow-Origin] the header is
    overwritten with the page's own origin. *)
Lemma acao_exact_name_overwritten (received : gmap string (list string))
    (upstream : list string) :
  received !! acao = Some upstream →
  ∃ delivered,
    onHeadersReceived (Some received) = Some delivered ∧
    delivered !! acao = Some (HOne webuiOrigin).
Proof.
  intros H. unfold onHeadersReceived. rewrite lookup_fmap, H. simpl.
  eexists. split; [done|]. apply lookup_insert_eq.
Qed.

(** C3.  The interceptor at the failing input: a response that carries the
    header under its lower-case spelling.  The name is a spelling of
    [Access-Control-Allow-Origin], yet the upstream value reaches the page
    and not the page's own origin: the lookup by exact key misses the
    header that the code sets out to override. *)
Lemma acao_lowercase_passes_unchanged :
  let name := "access-control-allow-origin" in
  same_header_name name acao = true ∧
  ∃ delivered,
    onHeadersReceived (Some {[name := ["*"]]}) = Some delivered ∧
    delivered !! name = Some (HMany ["*"]) ∧
    delivered !! name ≠ Some (HOne webuiOrigin).
Proof.
  split; [reflexivity|]. eexists. split; [reflexivity|]. split; [|done].
  by vm_compute.
Qed.

(* ===================================================================== *)
(** ** A window is constructed only when there is none *)
(* ===================================================================== *)

Global Instance keeps_window_preorder : PreOrder keeps_window.
Proof.
  split; [by intros s H|].
  intros s1 s2 s3 H12 H23 H. destruct (H12 H) as [E1 N1].
  destruct (H23 N1) as [E2 N2]. split; [congruence | done].
Qed.

Lemma same_runtime_keeps_window s s' : same_runtime s s' → keeps_window s s'.
Proof. intros (_ & Hw & _ & Hc & _) H. by rewrite Hw, Hc. Qed.

Lemma getWindow_keeps_window : preserves keeps_window getWindow.
Proof.
  intros s H. destruct (window s) as [w|] eqn:E; [|done].
  rewrite (getWindow_Some _ _ E). simpl. by rewrite E.
Qed.

Ltac window_leaf :=
  first
    [ apply getWindow_keeps_window
    | eapply preserves_weaken;
        [ exact same_runtime_keeps_window
        | first [ apply launchWindow_body_same_runtime
                | apply resolve_same_runtime ] ]
    | exact (λ H, conj eq_refl H) ].

Lemma launchWindow_keeps_window path focus forceRefresh andThen :
  preserves keeps_window (launchWindow path focus forceRefresh andThen).
Proof. unfold launchWindow. pres window_leaf. Qed.

Lemma created_step s e : window s ≠ None → created (step s e) = created s.
Proof.
  destruct e;
    try solve
      [ revert s;
        match goal with
        | |- ∀ s, _ → created (step s ?e) = _ =>
            cut (preserves keeps_window (dispatch e)); [intros H s Hs; by apply H|]
        end;
        unfold dispatch, startup, getWebUI, on_toggle, on_ipfsd,
          on_config_get, on_before_quit, on_ready_to_show, on_crashed,
          on_unresponsive, on_resize, updateLanguage, loadURL;
        pres first [apply launchWindow_keeps_window | window_leaf] ].
  intros _. unfold step, exec, dispatch, on_close. run_M.
  repeat (case_bool_decide; simpl); try reflexivity;
    destruct (window s); simpl; repeat (case_bool_decide; simpl); reflexivity.
Qed.

(** C2.  In every state the module can reach, at most one window exists;
    [getWindow] called while the reference is set returns that very window
    and changes nothing; and no event makes the module construct a window
    unless the reference is null. *)
Theorem one_window (s : State) :
  reachable s →
  (size (live s) ≤ 1)%nat ∧
  (∀ w, window s = Some w → getWindow s = (s, Ok (Resolved w))) ∧
  (∀ e, created (step s e) ≠ created s → window s = None) ∧
  (created (exec getWindow s) ≠ created s → window s = None).
Proof.
  intros Hr. apply reachable_single in Hr as (H1 & _ & _).
  split; [|split; [|split]].
  - destruct (window s) as [w|] eqn:E.
    + rewrite <- (size_singleton (C := gset nat) w). apply subseteq_size.
      intros w' Hw'. apply H1 in Hw' as [= ->]. set_solver.
    + assert (live s = ∅) as ->; [|by rewrite size_empty; lia].
      apply set_eq. intros w. split; [|set_solver]. intros Hw. by apply H1 in Hw.
  - apply getWindow_Some.
  - intros e Hne. destruct (window s) eqn:E; [|done].
    destruct Hne. apply created_step. by rewrite E.
  - intros Hne. destruct (window s) as [w|] eqn:E; [|done].
    destruct Hne. unfold exec. by rewrite (getWindow_Some _ _ E).
Qed.

Lemma one_window_witness :
  let s := run (init (VStr "device") ∅) [EvStartup; EvReadyToShow 0; EvClose 0; EvGetWebUI] in
  (size (live s) ≤ 1)%nat ∧ getWindow s = (s, Ok (Resolved 1)).
Proof.
  intros s.
  assert (reachable s) as Hr
    by (by exists (VStr "device"), ∅, [EvStartup; EvReadyToShow 0; EvClose 0; EvGetWebUI]).
  destruct (one_window s Hr) as (H1 & H2 & _).
  split; [exact H1 | apply H2; by vm_compute].
Defined.

(* ===================================================================== *)
(** ** What the loaded URL carries *)
(* ===================================================================== *)

Section UrlContract.

Variable deviceId : string.
Variable language : value.
Variable carried : option string.

Global Instance contract_preorder : PreOrder (contract deviceId language carried).
Proof.
  split.
  - intros s H. split; [done|]. split; [done|]. exists []. by rewrite app_nil_r.
  - intros s1 s2 s3 H12 H23 H1.
    destruct (H12 H1) as (H2 & A12 & new1 & O12 & F1).
    destruct (H23 H2) as (H3 & A23 & new2 & O23 & F2).
    split; [done|]. split; [congruence|].
    exists (new1 ++ new2)%list. split; [by rewrite O23, O12, app_assoc|].
    apply Forall_app. split; [done|]. by rewrite <- A12.
Qed.
















End UrlContract.







(* ===================================================================== *)
(** ** The fragment follows the navigation *)
(* ===================================================================== *)

Global Instance keeps_nav_preorder : PreOrder keeps_nav.
Proof.
  split; [intros s H; exact H | intros s1 s2 s3 H12 H23 H; apply H23, H12, H].
Qed.





















(** A session: start-up, the window gets ready, the daemon reports its
    address, the user opens the files page. *)
Example session_loads :
  let s := run (init (VStr "device") {["language" := VStr "en"]})
             [EvStartup; EvReadyToShow 0;
              EvIpfsd (Some (VObj 7 "/ip4/127.0.0.1/tcp/5001"));
              EvLaunchWebUI (VStr "/files") false false] in
  last (out s) =
    Some (ELoadURL 0 (mkURL (Some "/files")
                        [("deviceId", "device"); ("lng", "en");
                         ("api", "/ip4/127.0.0.1/tcp/5001")])).
Proof. by vm_compute. Qed.

(* ===================================================================== *)
(** ** The fuel of [settle] *)
(* ===================================================================== *)

(** More fuel than there are suspended invocations is never used up: the
    result is the same for any such amount, so [resolve] runs [settle] to
    its end. *)
Lemma settle_enough_fuel fuel : ∀ fuel' w s,
  size (pending s) < fuel → size (pending s) < fuel' →
  settle fuel w s = settle fuel' w s.
Proof.
  induction fuel as [|fuel IH]; intros fuel' w s H H'; [lia|].
  destruct fuel' as [|fuel']; [lia|]. simpl.
  unfold mbind, M_bind, gets, modify; simpl.
  destruct (pending s !! w) as [k|] eqn:E; [|done].
  destruct k as [|path focus forceRefresh andThen]; [done|].
  set (s1 := with_pending (delete w) s).
  pose proof (launchWindow_body_same_control (window s1) path focus forceRefresh s1)
    as [_ Hp].
  destruct (launchWindow_body (window s1) path focus forceRefresh s1) as [s2 [[]|msg]];
    [|done].
  destruct andThen as [w0|]; [|done].
  simpl in Hp. assert (size (pending s2) = pred (size (pending s))) as Hsz.
  { rewrite Hp. simpl. apply map_size_delete_Some. by eexists. }
  assert (size (pending s) ≠ 0) as Hpos.
  { intros Hz. apply map_size_empty_inv in Hz. by rewrite Hz, lookup_empty in E. }
  apply IH; lia.
Qed.

(* ===================================================================== *)
(** ** Further properties: settings *)
(* ===================================================================== *)

Lemma strict_eq_null_false v : v ≠ VNull → strict_eq v VNull = false.
Proof. by destruct v. Qed.

Lemma store_lookup_insert_eq m k v d :
  v ≠ VUndefined → store_lookup (<[k := v]> m) k d = v.
Proof. intros Hv. unfold store_lookup. rewrite lookup_insert_eq. by destruct v. Qed.

Lemma store_lookup_insert_ne m k k' v d :
  k ≠ k' → store_lookup (<[k := v]> m) k' d = store_lookup m k' d.
Proof. intros Hk. unfold store_lookup. by rewrite lookup_insert_ne. Qed.

(** X1.  The set-up touches no setting but [openWebUIAtLaunch], and leaves
    that one alone when a value other than null is stored: a stored falsy
    choice survives, and the start-up function then opens nothing. *)
Theorem init_keeps_settings (countlyDeviceId : value) (persisted : gmap string value) :
  (∀ k, k ≠ CONFIG_KEY →
     store (init countlyDeviceId persisted) !! k = persisted !! k) ∧
  (∀ v, persisted !! CONFIG_KEY = Some v → v ≠ VNull → v ≠ VUndefined →
     store (init countlyDeviceId persisted) = persisted ∧
     (truthy v = false →
        step (init countlyDeviceId persisted) EvStartup = init countlyDeviceId persisted)).
Proof.
  split.
  - intros k Hk. unfold init; simpl. destruct (strict_eq _ _); [|done].
    by rewrite lookup_insert_ne.
  - intros v Hv Hn Hu.
    assert (store_lookup persisted CONFIG_KEY VNull = v) as Hl.
    { unfold store_lookup. rewrite Hv. by destruct v. }
    assert (store (init countlyDeviceId persisted) = persisted) as Hs.
    { unfold init; simpl. by rewrite Hl, strict_eq_null_false. }
    split; [exact Hs|]. intros Hf.
    remember (init countlyDeviceId persisted) as s0 eqn:E. clear E.
    unfold step, exec, dispatch, startup. run_M. rewrite Hs.
    assert (store_lookup persisted CONFIG_KEY VUndefined = v) as ->.
    { unfold store_lookup. rewrite Hv. by destruct v. }
    by rewrite Hf.
Qed.

Lemma init_keeps_settings_witness :
  let persisted : gmap string value := {[CONFIG_KEY := VBool false]} in
  store (init (VStr "device") persisted) = persisted ∧
  step (init (VStr "device") persisted) EvStartup = init (VStr "device") persisted.
Proof.
  intros persisted.
  assert (persisted !! CONFIG_KEY = Some (VBool false)) as H by (vm_compute; reflexivity).
  destruct (init_keeps_settings (VStr "device") persisted) as [_ H2].
  destruct (H2 (VBool false) H ltac:(discriminate) ltac:(discriminate)) as [Hs Hn].
  split; [exact Hs | apply Hn; reflexivity].
Defined.

(** [launchWindow] leaves the reference on a window, and on one that exists
    unless the reference it found named a destroyed window. *)
Lemma launchWindow_leaves_window path focus forceRefresh andThen s :
  ∃ w, window (launchWindow path focus forceRefresh andThen s).1 = Some w ∧
       ((∀ w0, window s = Some w0 → w0 ∈ live s) →
        w ∈ live (launchWindow path focus forceRefresh andThen s).1).
Proof.
  destruct (window s) as [w|] eqn:E.
  - rewrite (launchWindow_Some _ w) by done.
    assert (preserves same_runtime
              (launchWindow_body (Some w) path focus forceRefresh;;
               match andThen with Some w0 => resolve w0 | None => mret () end)) as H.
    { pres first [apply launchWindow_body_same_runtime | apply resolve_same_runtime]. }
    destruct (H s) as (_ & Hw & _ & _ & Hl & _). exists w.
    rewrite Hw, Hl. split; [done|]. intros Hlive. by apply Hlive.
  - rewrite launchWindow_None by done. exists (created s). split; [done|].
    intros _. simpl. apply elem_of_union_l. by apply elem_of_singleton_2.
Qed.

(** X2.  The value handed to the toggler's callback is what the next
    start-up reads: after a falsy value the start-up function does nothing,
    after a truthy one it is [launchWindow('/')], which leaves the reference
    on a window; that window exists, unless the reference named a destroyed
    window before (which the callback does not change).  The callback
    changes nothing but that setting. *)
Theorem toggle_then_startup (s : State) (newValue : value) :
  newValue ≠ VUndefined →
  let s' := step s (EvToggle newValue) in
  s' = with_store (insert CONFIG_KEY newValue) s ∧
  (truthy newValue = false → step s' EvStartup = s') ∧
  (truthy newValue = true →
     step s' EvStartup = exec (launchWindow (VStr "/") true false None) s' ∧
     ∃ w, window (step s' EvStartup) = Some w ∧
          ((∀ w0, window s = Some w0 → w0 ∈ live s) → w ∈ live (step s' EvStartup))).
Proof.
  intros Hu.
  assert (step s (EvToggle newValue) = with_store (insert CONFIG_KEY newValue) s) as Hs.
  { unfold step, exec, dispatch, on_toggle, store_set. by destruct newValue. }
  simpl. rewrite Hs. split; [done|].
  assert (∀ b, truthy newValue = b →
            startup (with_store (insert CONFIG_KEY newValue) s) =
            (if b then launchWindow (VStr "/") true false None else mret ())
              (with_store (insert CONFIG_KEY newValue) s)) as Hst.
  { intros b Hb. unfold startup. run_M. by rewrite store_lookup_insert_eq, Hb. }
  split; intros Hb; unfold step, exec, dispatch; rewrite (Hst _ Hb); [done|].
  split; [done|].
  apply (launchWindow_leaves_window (VStr "/") true false None
           (with_store (insert CONFIG_KEY newValue) s)).
Qed.

Lemma toggle_then_startup_witness :
  let s := opened (init (VStr "device") ∅) in
  step (step s (EvToggle (VBool false))) EvStartup = step s (EvToggle (VBool false)) ∧
  ∃ w, window (step (step s (EvToggle (VBool true))) EvStartup) = Some w ∧
       w ∈ live (step (step s (EvToggle (VBool true))) EvStartup).
Proof.
  intros s. split.
  - destruct (toggle_then_startup s (VBool false) ltac:(discriminate)) as (_ & H & _).
    apply H. reflexivity.
  - destruct (toggle_then_startup s (VBool true) ltac:(discriminate)) as (_ & _ & H).
    destruct (H eq_refl) as (_ & w & Hw & Hl). exists w. split; [exact Hw|].
    apply Hl. intros w0 [= <-]. by vm_compute.
Defined.

(** X3.  With no size stored, the window is as large as the primary
    display but never larger than 1440 by 900, and exactly 1440 by 900 when
    the display gives no dimension. *)
Theorem default_window_size (settings : gmap string value) (dimensions : option Z * option Z) :
  settings !! "window.width" = None → settings !! "window.height" = None →
  ∃ width height,
    window_size settings dimensions = (VNum width, VNum height) ∧
    (width ≤ 1440)%Z ∧ (height ≤ 900)%Z ∧
    (∀ d, dimensions.1 = Some d → width = Z.min d 1440) ∧
    (∀ d, dimensions.2 = Some d → height = Z.min d 900) ∧
    (dimensions.1 = None → width = 1440%Z) ∧
    (dimensions.2 = None → height = 900%Z).
Proof.
  intros Hw Hh. destruct dimensions as [dw dh].
  exists (capped dw 1440), (capped dh 900).
  unfold window_size, store_lookup. rewrite Hw, Hh. simpl. split; [done|].
  unfold capped. repeat split.
  - destruct dw as [d|]; [destruct (Z.ltb_spec d 1440)|]; lia.
  - destruct dh as [d|]; [destruct (Z.ltb_spec d 900)|]; lia.
  - intros d ->. destruct (Z.ltb_spec d 1440); lia.
  - intros d ->. destruct (Z.ltb_spec d 900); lia.
  - by intros ->.
  - by intros ->.
Qed.

Lemma default_window_size_witness :
  window_size ∅ (Some 1280%Z, None) = (VNum 1280, VNum 900).
Proof.
  destruct (default_window_size ∅ (Some 1280%Z, None)
              (lookup_empty _) (lookup_empty _))
    as (width & height & Hs & _ & _ & Hw & _ & _ & Hh).
  rewrite Hs, (Hw 1280%Z eq_refl), (Hh eq_refl). reflexivity.
Defined.

(** X4.  A resize of the window is remembered: whatever the display, the
    size stored by the [resize] listener is the size the next window is
    constructed with.  The listener changes no other setting and nothing
    else of the module. *)
Theorem resize_is_remembered (s : State) (w : win) (width height : Z)
    (dimensions : option Z * option Z) :
  w ∈ live s →
  let s' := step s (EvResize w width height) in
  window_size (store s') dimensions = (VNum width, VNum height) ∧
  (∀ k, k ≠ "window.width" → k ≠ "window.height" → store s' !! k = store s !! k) ∧
  url s' = url s ∧ window s' = window s ∧ apiAddress s' = apiAddress s ∧
  out s' = out s.
Proof.
  intros Hl. unfold step, exec, dispatch, on_resize, store_set. run_M.
  rewrite bool_decide_eq_true_2 by done. simpl.
  split; [|split; [|done]].
  - unfold window_size. rewrite store_lookup_insert_ne by done.
    by rewrite !store_lookup_insert_eq.
  - intros k H1 H2. by rewrite !lookup_insert_ne.
Qed.

Lemma resize_is_remembered_witness :
  let s := opened (init (VStr "device") ∅) in
  window_size (store (step s (EvResize 0 800 600))) (Some 1920%Z, Some 1080%Z) =
    (VNum 800, VNum 600).
Proof.
  intros s.
  assert (0 ∈ live s) as Hl by (by vm_compute).
  apply (resize_is_remembered s 0 800 600 (Some 1920%Z, Some 1080%Z) Hl).
Defined.

(* ===================================================================== *)
(** ** Further properties: closing and quitting *)
(* ===================================================================== *)

(** X5.  Once [before-quit] has fired, closing a window that exists is left
    to the runtime: the window goes away while the module makes no call (the
    dock is not hidden, [close()] is not called again) and keeps its
    reference and its [URL] object as they were. *)
Theorem before_quit_disarms_close (s : State) (w : win) :
  let s' := step (step s EvBeforeQuit) (EvClose w) in
  window s' = window s ∧ url s' = url s ∧ apiAddress s' = apiAddress s ∧
  out s' = out s ∧ live s' = live s ∖ {[w]} ∧ closeL s' = ∅.
Proof.
  unfold step, exec, dispatch, on_before_quit. run_M.
  case_bool_decide as Hl; simpl.
  - rewrite bool_decide_eq_false_2 by apply not_elem_of_empty. simpl.
    repeat split. apply set_eq. intros x. rewrite elem_of_difference.
    split; [by intros [[]%elem_of_empty _] | by intros []%elem_of_empty].
  - repeat split. apply set_eq. intros x.
    rewrite elem_of_difference, elem_of_singleton. split; [|tauto].
    intros Hx. split; [done|]. by intros ->.
Qed.

(** X6.  When the window the module refers to is closed while its [close]
    listener is in place, the module hides the dock and then calls [close()]
    on that same window, and makes no other call. *)
Theorem close_hides_dock (s : State) (w : win) :
  reachable s → w ∈ live s → w ∈ closeL s →
  out (step s (EvClose w)) = (out s ++ [EDockHide; ECloseCall w])%list.
Proof.
  intros Hr Hl Hc. apply reachable_single in Hr as (H1 & _ & _).
  specialize (H1 w Hl).
  unfold step, exec, dispatch, on_close. run_M.
  rewrite !bool_decide_eq_true_2 by done. simpl. rewrite H1. simpl.
  rewrite bool_decide_eq_true_2 by done. simpl. by rewrite <- app_assoc.
Qed.

Lemma close_hides_dock_witness :
  let s := run (init (VStr "device") ∅) [EvStartup; EvReadyToShow 0] in
  out (step s (EvClose 0)) = (out s ++ [EDockHide; ECloseCall 0])%list.
Proof.
  intros s.
  assert (reachable s) as Hr by (by exists (VStr "device"), ∅, [EvStartup; EvReadyToShow 0]).
  assert (0 ∈ live s) as Hl by (by vm_compute).
  assert (0 ∈ closeL s) as Hc by (by vm_compute).
  exact (close_hides_dock s 0 Hr Hl Hc).
Defined.

Lemma launchWindow_same_runtime_Some s w path focus forceRefresh andThen :
  window s = Some w →
  same_runtime s (launchWindow path focus forceRefresh andThen s).1.
Proof.
  intros H. rewrite (launchWindow_Some _ w) by done.
  assert (preserves same_runtime
            (launchWindow_body (Some w) path focus forceRefresh;;
             match andThen with Some w0 => resolve w0 | None => mret () end)) as Hp.
  { pres first [apply launchWindow_body_same_runtime | apply resolve_same_runtime]. }
  apply Hp.
Qed.

Lemma on_ready_to_show_same_runtime s w w0 :
  window s = Some w0 → same_runtime s (on_ready_to_show w s).1.
Proof.
  intros H. unfold on_ready_to_show, log, emit.
  unfold mbind at 1. unfold M_bind at 1. unfold modify at 1.
  etransitivity; [|by apply (launchWindow_same_runtime_Some _ w0)].
  by repeat split.
Qed.

Lemma step_ready_to_show s w :
  step s (EvReadyToShow w) =
  if bool_decide (w ∈ live s) && bool_decide (w ∈ readyL s)
  then (on_ready_to_show w (with_readyL (λ l, l ∖ {[w]}) s)).1
  else s.
Proof.
  unfold step, exec, dispatch. unfold mbind at 1. unfold M_bind at 1. unfold gets at 1.
  destruct (bool_decide (w ∈ live s) && bool_decide (w ∈ readyL s)); [|done].
  unfold when. unfold mbind at 1. unfold M_bind at 1. by unfold modify at 1.
Qed.

Lemma ready_disarmed s w :
  single s →
  bool_decide (w ∈ live (step s (EvReadyToShow w))) &&
  bool_decide (w ∈ readyL (step s (EvReadyToShow w))) = false.
Proof.
  intros (H1 & _ & _). rewrite step_ready_to_show.
  destruct (bool_decide (w ∈ live s) && bool_decide (w ∈ readyL s)) eqn:Ha; [|done].
  apply andb_true_iff in Ha as [Hl%bool_decide_eq_true _].
  destruct (on_ready_to_show_same_runtime (with_readyL (λ l, l ∖ {[w]}) s) w w)
    as (_ & _ & _ & _ & _ & _ & Hr); [exact (H1 w Hl)|].
  apply andb_false_iff. right. apply bool_decide_eq_false.
  rewrite Hr. simpl. rewrite elem_of_difference, elem_of_singleton. tauto.
Qed.

(** X7.  The [ready-to-show] listener is one-shot: when the runtime raises
    the event a second time on the same window, nothing happens at all (no
    second navigation, no second show). *)
Theorem ready_to_show_once (s : State) (w : win) :
  reachable s →
  step (step s (EvReadyToShow w)) (EvReadyToShow w) = step s (EvReadyToShow w).
Proof.
  intros Hr. apply reachable_single in Hr.
  pose proof (ready_disarmed s w Hr) as H.
  remember (step s (EvReadyToShow w)) as s1 eqn:E. clear E.
  unfold step, exec, dispatch. run_M. by rewrite H.
Qed.

Lemma ready_to_show_once_witness :
  let s := run (init (VStr "device") ∅) [EvStartup] in
  step (step s (EvReadyToShow 0)) (EvReadyToShow 0) = step s (EvReadyToShow 0).
Proof.
  intros s.
  assert (reachable s) as Hr by (by exists (VStr "device"), ∅, [EvStartup]).
  exact (ready_to_show_once s 0 Hr).
Defined.

(* ===================================================================== *)
(** ** Further properties: the daemon address *)
(* ===================================================================== *)

Lemma strict_eq_refl v : v ≠ VNaN → strict_eq v v = true.
Proof.
  destruct v as [| |b|z| |x|n x]; simpl; try done.
  - by destruct b.
  - intros _. apply Z.eqb_refl.
  - intros _. apply String.eqb_refl.
  - intros _. apply Nat.eqb_refl.
Qed.

Lemma on_ipfsd_remembers s a :
  strict_eq a (apiAddress s) = false → apiAddress (step s (EvIpfsd (Some a))) = a.
Proof.
  intros H. unfold step, exec, dispatch, on_ipfsd. run_M. rewrite H. simpl.
  destruct (window s); simpl; [case_bool_decide; simpl|]; done.
Qed.

(** X8.  Reporting the same daemon address again is redundant: the second
    [ipfsd] message with an address that is strictly equal to itself (any
    value but NaN) changes nothing and reloads nothing. *)
Theorem ipfsd_report_idempotent (s : State) (a : value) :
  a ≠ VNaN →
  step (step s (EvIpfsd (Some a))) (EvIpfsd (Some a)) = step s (EvIpfsd (Some a)).
Proof.
  intros Ha. destruct (strict_eq a (apiAddress s)) eqn:Heq.
  - assert (step s (EvIpfsd (Some a)) = s) as ->; [|].
    all: unfold step, exec, dispatch; by rewrite on_ipfsd_same.
  - pose proof (on_ipfsd_remembers s a Heq) as Hr.
    remember (step s (EvIpfsd (Some a))) as s1 eqn:E. clear E.
    unfold step, exec, dispatch. rewrite on_ipfsd_same; [done|].
    rewrite Hr. by apply strict_eq_refl.
Qed.

Lemma ipfsd_report_idempotent_witness :
  let s := opened (init (VStr "device") ∅) in
  let a := VStr "/ip4/127.0.0.1/tcp/5001" in
  step (step s (EvIpfsd (Some a))) (EvIpfsd (Some a)) = step s (EvIpfsd (Some a)).
Proof.
  intros s a. apply (ipfsd_report_idempotent s a). discriminate.
Defined.

(* ===================================================================== *)
(** ** Further properties: the header interceptors *)
(* ===================================================================== *)

(** X9.  The response interceptor neither adds nor removes a header: the
    page receives exactly the header names the response had, and a response
    without [Access-Control-Allow-Origin] is delivered as received, so no
    access is granted that the server did not grant. *)
Theorem onHeadersReceived_keeps_names (received : gmap string (list string)) :
  ∃ delivered,
    onHeadersReceived (Some received) = Some delivered ∧
    dom delivered = dom received ∧
    (received !! acao = None →
       delivered = HMany <$> received ∧ delivered !! acao = None).
Proof.
  unfold onHeadersReceived. rewrite lookup_fmap.
  destruct (received !! acao) as [upstream|] eqn:E; simpl.
  - eexists. split; [done|]. split; [|done].
    rewrite dom_insert_lookup_L; [apply dom_fmap_L|].
    rewrite lookup_fmap, E. by eexists.
  - eexists. split; [done|]. split; [apply dom_fmap_L|].
    intros _. split; [done|]. by rewrite lookup_fmap, E.
Qed.

(** X10.  What the page itself put under [Origin] or [User-Agent] never
    reaches the daemon: the request interceptor gives the same answer
    whatever these two headers held, and applying it to its own result
    changes nothing. *)
Theorem onBeforeSendHeaders_overrides (toUri : value → outcome string)
    (URL_origin : string → outcome string) (VERSION ELECTRON_VERSION : string)
    (apiAddress : value) (headers : gmap string string) (origin agent : string) :
  let intercept := onBeforeSendHeaders toUri URL_origin VERSION ELECTRON_VERSION apiAddress in
  intercept (<["Origin" := origin]> headers) = intercept headers ∧
  intercept (<["User-Agent" := agent]> headers) = intercept headers ∧
  (∀ r, intercept headers = Ok r → intercept (requestHeaders r) = Ok r).
Proof.
  simpl. unfold onBeforeSendHeaders.
  destruct (apiOrigin toUri URL_origin apiAddress) as [o|msg]; simpl; [|done].
  split; [by rewrite insert_insert_eq|].
  split.
  - by rewrite (insert_insert_ne _ "Origin" "User-Agent"), insert_insert_eq.
  - intros r [= <-]. simpl. do 2 f_equal.
    apply map_eq. intros k. rewrite !lookup_insert. by repeat case_decide.
Qed.

Lemma onBeforeSendHeaders_overrides_witness :
  onBeforeSendHeaders sample_toUri sample_origin "0.13.2" "9.3.3" VNull
    (<["Origin" := "webui://-"]> ∅) =
  onBeforeSendHeaders sample_toUri sample_origin "0.13.2" "9.3.3" VNull ∅.
Proof.
  exact (proj1 (onBeforeSendHeaders_overrides sample_toUri sample_origin "0.13.2" "9.3.3"
                  VNull ∅ "webui://-" "")).
Defined.

(* ===================================================================== *)
(** ** Further properties: the shape of the query *)
(* ===================================================================== *)

Global Instance keeps_shape_preorder : PreOrder keeps_shape.
Proof.
  split; [intros s H; exact H | intros s1 s2 s3 H12 H23 H; apply H23, H12, H].
Qed.

Lemma query_shape_set k v u :
  k = "lng" ∨ k = "api" → query_shape u → query_shape (searchParams_set k v u).
Proof.
  intros Hk. unfold query_shape, query_names. destruct u as [f l]. simpl.
  rewrite !elem_of_cons, elem_of_nil. intros H.
  destruct l as [|[k1 v1] [|[k2 v2] [|[k3 v3] [|[k4 v4] l]]]];
    simpl in H; destruct H as [H|[H|[H|[H|[H|[]]]]]]; simplify_eq;
    destruct Hk as [-> | ->]; simpl; tauto.
Qed.

Lemma keeps_shape_set k v s :
  k = "lng" ∨ k = "api" → keeps_shape s (with_url (searchParams_set k v) s).
Proof. intros Hk H. by apply query_shape_set. Qed.

Ltac shape_leaf :=
  first
    [ exact (λ H, H)
    | apply keeps_shape_set; tauto ].

Lemma getWindow_shape : preserves keeps_shape getWindow.
Proof. unfold getWindow, createWindow, updateLanguage, loadURL. pres shape_leaf. Qed.

Lemma launchWindow_body_shape ow path focus forceRefresh :
  preserves keeps_shape (launchWindow_body ow path focus forceRefresh).
Proof. unfold launchWindow_body, loadURL. pres shape_leaf. Qed.

Lemma settle_shape fuel : ∀ w, preserves keeps_shape (settle fuel w).
Proof.
  induction fuel as [|fuel IH]; intros w; simpl;
    pres first [apply launchWindow_body_shape | apply IH | shape_leaf].
Qed.

Lemma launchWindow_shape path focus forceRefresh andThen :
  preserves keeps_shape (launchWindow path focus forceRefresh andThen).
Proof.
  unfold launchWindow, resolve.
  pres first [apply getWindow_shape | apply launchWindow_body_shape
             | apply settle_shape | shape_leaf].
Qed.

Lemma step_shape s e : query_shape (url s) → query_shape (url (step s e)).
Proof.
  revert s. cut (preserves keeps_shape (dispatch e)); [intros H s; apply H|].
  destruct e;
    unfold dispatch, startup, getWebUI, on_toggle, on_ipfsd, on_config_get,
      on_before_quit, on_ready_to_show, on_close, on_crashed, on_unresponsive,
      on_resize, updateLanguage, loadURL;
    pres first [apply launchWindow_shape | apply getWindow_shape | shape_leaf].
Qed.

(** X11.  In every state the module can reach, the query of its [URL]
    object starts with [deviceId], followed by [lng] and [api] in the order
    in which they were first set: no other parameter is ever added and none
    occurs twice, however often the locale and the address are set again. *)
Theorem query_keeps_its_shape (s : State) :
  reachable s →
  query_shape (url s) ∧ NoDup (query_names (url s)).
Proof.
  intros (d & p & es & ->).
  assert (query_shape (url (run (init d p) es))) as H.
  { assert (query_shape (url (init d p))) as H0.
    { unfold query_shape, query_names, init; simpl. rewrite !elem_of_cons. tauto. }
    revert H0. generalize (init d p). induction es as [|e es IH]; intros s H; simpl;
      [done|]. by apply IH, step_shape. }
  split; [exact H|]. unfold query_shape in H. revert H.
  rewrite !elem_of_cons, elem_of_nil. intros [->|[->|[->|[->|[->|[]]]]]];
    compute_done.
Qed.

Lemma query_keeps_its_shape_witness :
  let s := run (init (VStr "device") ∅)
             [EvIpfsd (Some (VStr "/ip4/127.0.0.1/tcp/5001")); EvStartup;
              EvIpfsd (Some (VStr "/ip4/127.0.0.1/tcp/5002"))] in
  NoDup (query_names (url s)).
Proof.
  intros s.
  assert (reachable s) as Hr by (by eexists (VStr "device"), ∅, _).
  exact (proj2 (query_keeps_its_shape s Hr)).
Defined.

(* ===================================================================== *)
(** ** Further properties: the address in the query *)
(* ===================================================================== *)

Global Instance keeps_mirror_preorder : PreOrder keeps_mirror.
Proof.
  split; [intros s H; exact H | intros s1 s2 s3 H12 H23 H; apply H23, H12, H].
Qed.

Lemma mirror_set_lng v s :
  keeps_mirror s (with_url (searchParams_set "lng" v) s).
Proof.
  unfold keeps_mirror, api_mirrors; simpl.
  by rewrite searchParams_get_set_ne.
Qed.

Ltac mirror_leaf :=
  first
    [ exact (λ H, H)
    | apply mirror_set_lng ].

Lemma getWindow_mirror : preserves keeps_mirror getWindow.
Proof. unfold getWindow, createWindow, updateLanguage, loadURL. pres mirror_leaf. Qed.

Lemma launchWindow_body_mirror ow path focus forceRefresh :
  preserves keeps_mirror (launchWindow_body ow path focus forceRefresh).
Proof. unfold launchWindow_body, loadURL. pres mirror_leaf. Qed.

Lemma settle_mirror fuel : ∀ w, preserves keeps_mirror (settle fuel w).
Proof.
  induction fuel as [|fuel IH]; intros w; simpl;
    pres first [apply launchWindow_body_mirror | apply IH | mirror_leaf].
Qed.

Lemma launchWindow_mirror path focus forceRefresh andThen :
  preserves keeps_mirror (launchWindow path focus forceRefresh andThen).
Proof.
  unfold launchWindow, resolve.
  pres first [apply getWindow_mirror | apply launchWindow_body_mirror
             | apply settle_mirror | mirror_leaf].
Qed.

Lemma on_ipfsd_mirror s ipfsd : api_mirrors s → api_mirrors (step s (EvIpfsd ipfsd)).
Proof.
  intros H. destruct ipfsd as [a|]; [|exact H].
  destruct (strict_eq a (apiAddress s)) eqn:Heq.
  { unfold step, exec, dispatch. by rewrite on_ipfsd_same. }
  right. unfold step, exec, dispatch, on_ipfsd. run_M. rewrite Heq. simpl.
  fold (readdressed a s).
  destruct (window s); simpl; [case_bool_decide; simpl|]; apply readdressed_api.
Qed.

Lemma step_mirror s e : api_mirrors s → api_mirrors (step s e).
Proof.
  destruct e; try (by apply on_ipfsd_mirror);
    revert s;
    match goal with
    | |- ∀ s, _ → api_mirrors (step s ?e) =>
        cut (preserves keeps_mirror (dispatch e)); [intros H s; apply H|]
    end;
    unfold dispatch, startup, getWebUI, on_toggle, on_config_get,
      on_before_quit, on_ready_to_show, on_close, on_crashed, on_unresponsive,
      on_resize, loadURL;
    pres first [apply launchWindow_mirror | apply getWindow_mirror | mirror_leaf].
Qed.

(** X12.  In every state the module can reach, the [api] parameter mirrors
    the remembered address: as long as none has been remembered the URL has
    no [api] parameter at all, and afterwards the parameter is always the
    remembered address (also between loads, and after the window was closed
    and opened again). *)
Theorem api_parameter_mirrors_address (s : State) :
  reachable s → api_mirrors s.
Proof.
  intros (d & p & es & ->).
  assert (api_mirrors (init d p)) as H0 by (by left).
  revert H0. generalize (init d p). induction es as [|e es IH]; intros s H; simpl;
    [done|]. by apply IH, step_mirror.
Qed.

Lemma api_parameter_mirrors_address_witness :
  api_mirrors (run (init (VStr "device") ∅)
                 [EvIpfsd (Some (VStr "/ip4/127.0.0.1/tcp/5001")); EvStartup; EvClose 0]).
Proof.
  apply api_parameter_mirrors_address. by eexists (VStr "device"), ∅, _.
Defined.

(* ===================================================================== *)
(** ** Further properties: opening the window *)
(* ===================================================================== *)

(** The calls of one navigation to [/] on window [w]. *)
Definition visit_home (w : win) (home : URL) : list effect :=
  [ELog Info (MsgNavigate "/"); ELoadURL w home; EShow w; EFocus w; EDockShow;
   ELoadURL w home].

(** X13.  Start-up with no window and the setting on: the window is
    constructed and loaded with the current URL, and is neither shown nor
    focused before it is ready.  When [ready-to-show] fires, the listener
    navigates to [/] and shows the window, and then the suspended start-up
    call does the same once more; nothing is left suspended. *)
Theorem startup_shows_when_ready (s : State) :
  window s = None →
  truthy (store_lookup (store s) CONFIG_KEY VUndefined) = true →
  let w := created s in
  let home := set_hash "/" (url (opened s)) in
  let s1 := step s EvStartup in
  let s2 := step s1 (EvReadyToShow w) in
  out s1 = (out s ++ [ENewWindow w; ELoadURL w (url (opened s))])%list ∧
  out s2 = (out s1 ++ [ELog Info MsgWindowReady] ++ visit_home w home ++ visit_home w home)%list ∧
  url s2 = home ∧ window s2 = Some w ∧ pending s2 !! w = None.
Proof.
  intros Hw Hon. simpl.
  assert (step s EvStartup =
          with_pending (insert (created s) (KLaunch (VStr "/") true false None)) (opened s))
    as ->.
  { unfold step, exec, dispatch, startup. unfold mbind at 1. unfold M_bind at 1.
    unfold store_get, gets at 1. rewrite Hon. by rewrite launchWindow_None. }
  split; [done|].
  assert (∀ X : gset nat, bool_decide (created s ∈ {[created s]} ∪ X) = true) as Hin.
  { intros X. apply bool_decide_eq_true_2. apply elem_of_union_l, elem_of_singleton_2.
    reflexivity. }
  unfold step, exec, dispatch, on_ready_to_show, launchWindow, getWindow, resolve.
  unfold launchWindow_body. run_M. repeat (rewrite Hin; simpl).
  run_M. rewrite lookup_insert_eq. simpl.
  unfold launchWindow_body. run_M. repeat (rewrite Hin; simpl).
  split; [by rewrite <- !app_assoc|]. split; [done|]. split; [done|].
  apply lookup_delete_eq.
Qed.

Lemma startup_shows_when_ready_witness :
  let s := init (VStr "device") ∅ in
  out (step s EvStartup) = (out s ++ [ENewWindow 0; ELoadURL 0 (url (opened s))])%list ∧
  window (step (step s EvStartup) (EvReadyToShow 0)) = Some 0.
Proof.
  intros s.
  destruct (startup_shows_when_ready s eq_refl eq_refl) as (H1 & _ & _ & H4 & _).
  split; [exact H1 | exact H4].
Defined.

(** X14.  [launchWindow] without a path brings the existing window to the
    front without touching the page: the [URL] object stays as it is, and
    among the calls made there is neither a navigation nor a [loadURL]. *)
Theorem launch_without_path_keeps_page (s : State) (w : win) (path : value)
    (focus forceRefresh : bool) :
  window s = Some w → truthy path = false →
  let s' := step s (EvLaunchWebUI path focus forceRefresh) in
  url s' = url s ∧ window s' = Some w ∧
  ∃ new, out s' = (out s ++ new)%list ∧ Forall plain_call new.
Proof.
  intros Hw Hp. unfold step, exec, dispatch.
  rewrite (launchWindow_Some _ w) by done.
  unfold launchWindow_body. run_M. rewrite Hp. simpl.
  destruct forceRefresh, focus; simpl; repeat (case_bool_decide; simpl);
    (split; [done|]; split; [done|]);
    rewrite <- ?app_assoc; simpl;
    first [ eexists; split; [reflexivity | by repeat constructor]
          | exists []; split; [by rewrite app_nil_r | constructor] ].
Qed.

Lemma launch_without_path_keeps_page_witness :
  let s := run (init (VStr "device") ∅) [EvStartup; EvReadyToShow 0] in
  url (step s (EvLaunchWebUI VUndefined true false)) = url s.
Proof.
  intros s.
  assert (window s = Some 0) as Hw by (by vm_compute).
  exact (proj1 (launch_without_path_keeps_page s 0 VUndefined true false Hw eq_refl)).
Defined.

(** X17.  [launchWindow] with a path on the existing window sets the hash
    to that path and loads the page twice with the resulting URL, once
    before and once after the window is shown; a forced refresh comes
    first. *)
Theorem launch_with_path_loads_twice (s : State) (w : win) (path : value)
    (focus forceRefresh : bool) :
  window s = Some w → w ∈ live s → truthy path = true →
  let s' := step s (EvLaunchWebUI path focus forceRefresh) in
  let href := set_hash (ToString path) (url s) in
  url s' = href ∧
  out s' =
    (out s ++ (if forceRefresh then [EReload w] else []) ++
     [ELog Info (MsgNavigate (ToString path)); ELoadURL w href] ++
     (if focus then [EShow w; EFocus w; EDockShow] else []) ++
     [ELoadURL w href])%list.
Proof.
  intros Hw Hl Hp. unfold step, exec, dispatch.
  rewrite (launchWindow_Some _ w) by done.
  unfold launchWindow_body. run_M. rewrite Hp. simpl.
  destruct forceRefresh, focus; simpl;
    repeat (rewrite (bool_decide_eq_true_2 _ Hl); simpl);
    (split; [done|]); by rewrite <- ?app_assoc.
Qed.

Lemma launch_with_path_loads_twice_witness :
  let s := run (init (VStr "device") ∅) [EvStartup; EvReadyToShow 0] in
  url (step s (EvLaunchWebUI (VStr "/files") true false)) =
    set_hash "/files" (url s).
Proof.
  intros s.
  assert (window s = Some 0) as Hw by (by vm_compute).
  assert (0 ∈ live s) as Hl by (by vm_compute).
  exact (proj1 (launch_with_path_loads_twice s 0 (VStr "/files") true false Hw Hl eq_refl)).
Defined.

Lemma close_armed_url s w :
  w ∈ live s → w ∈ closeL s →
  url (step s (EvClose w)) = url s ∧ store (step s (EvClose w)) = store s.
Proof.
  intros Hl Hc. unfold step, exec, dispatch, on_close. run_M.
  rewrite !bool_decide_eq_true_2 by done. simpl.
  destruct (window s) as [m|]; simpl; [case_bool_decide; simpl|]; done.
Qed.

(** X18.  The [URL] object outlives the window: when the window is closed
    and a window is asked for again, the new window is loaded with the page
    last navigated to and with the same device and daemon parameters, not
    with the blank page of the first start. *)
Theorem reopen_returns_to_last_page (s : State) (w : win) :
  reachable s → w ∈ live s → w ∈ closeL s →
  let s1 := step s (EvClose w) in
  let s2 := step s1 EvGetWebUI in
  let w' := created s in
  out s2 = (out s1 ++ [ENewWindow w'; ELoadURL w' (url s2)])%list ∧
  window s2 = Some w' ∧ w' ≠ w ∧
  fragment (url s2) = fragment (url s) ∧
  searchParams_get "deviceId" (url s2) = searchParams_get "deviceId" (url s) ∧
  searchParams_get "api" (url s2) = searchParams_get "api" (url s).
Proof.
  intros Hr Hl Hc.
  destruct (close_armed_window s w Hl Hc) as (Hw & _ & Hcr).
  destruct (close_armed_url s w Hl Hc) as (Hu & _).
  apply reachable_single in Hr as (_ & Hlt & _). specialize (Hlt w Hl).
  simpl. remember (step s (EvClose w)) as s1 eqn:E. clear E.
  unfold step, exec, dispatch, getWebUI.
  unfold mbind, M_bind. rewrite (getWindow_None _ Hw). simpl.
  rewrite Hcr, Hu. split; [done|]. split; [done|]. split; [lia|].
  split; [done|]. by rewrite !searchParams_get_set_ne.
Qed.

Lemma reopen_returns_to_last_page_witness :
  let s := run (init (VStr "device") ∅)
             [EvStartup; EvReadyToShow 0; EvLaunchWebUI (VStr "/files") true false] in
  fragment (url (step (step s (EvClose 0)) EvGetWebUI)) = fragment (url s).
Proof.
  intros s.
  assert (reachable s) as Hr by (by eexists (VStr "device"), ∅, _).
  assert (0 ∈ live s) as Hl by (by vm_compute).
  assert (0 ∈ closeL s) as Hc by (by vm_compute).
  destruct (reopen_returns_to_last_page s 0 Hr Hl Hc) as (_ & _ & _ & H & _).
  exact H.
Defined.

(* ===================================================================== *)
(** ** Further properties: the [config.get] message *)
(* ===================================================================== *)

(** X15.  The [config.get] listener sends the settings to the window only
    when there is one that still exists, and then sends the whole store as
    it is at that moment: after the toggler's callback the page is told the
    new value.  With no window, or a destroyed one, nothing is sent and
    nothing changes. *)
Theorem config_get_reports_settings (s : State) :
  (window s = None → step s EvConfigGet = s) ∧
  (∀ w, window s = Some w → w ∉ live s → step s EvConfigGet = s) ∧
  (∀ w, window s = Some w → w ∈ live s →
     step s EvConfigGet =
       with_out (λ l, l ++ [ESend w "config.changed" (store s)])%list s ∧
     ∀ newValue, newValue ≠ VUndefined →
       out (run s [EvToggle newValue; EvConfigGet]) =
       (out s ++ [ESend w "config.changed" (<[CONFIG_KEY := newValue]> (store s))])%list).
Proof.
  split; [|split].
  - intros Hw. unfold step, exec, dispatch, on_config_get. run_M. by rewrite Hw.
  - intros w Hw Hl. unfold step, exec, dispatch, on_config_get. run_M. rewrite Hw. simpl.
    by rewrite bool_decide_eq_false_2.
  - intros w Hw Hl. split.
    + unfold step, exec, dispatch, on_config_get. run_M. rewrite Hw. simpl.
      by rewrite bool_decide_eq_true_2.
    + intros v Hv. simpl.
      assert (step s (EvToggle v) = with_store (insert CONFIG_KEY v) s) as ->.
      { unfold step, exec, dispatch, on_toggle, store_set. by destruct v. }
      unfold step, exec, dispatch, on_config_get. run_M. rewrite Hw. simpl.
      by rewrite bool_decide_eq_true_2.
Qed.

Lemma config_get_reports_settings_witness :
  let s := opened (init (VStr "device") ∅) in
  out (run s [EvToggle (VBool false); EvConfigGet]) =
  (out s ++ [ESend 0 "config.changed" (<[CONFIG_KEY := VBool false]> (store s))])%list.
Proof.
  intros s.
  assert (0 ∈ live s) as Hl by (by vm_compute).
  destruct (config_get_reports_settings s) as (_ & _ & H).
  destruct (H 0 eq_refl Hl) as [_ H2]. apply H2. discriminate.
Defined.

(* ===================================================================== *)
(** ** Further properties: the development tools *)
(* ===================================================================== *)

(** X16.  [createWindow] opens the development tools exactly when the
    environment variable [DEBUG] is set and contains [ipfs-desktop]
    somewhere in its value. *)
Theorem devtools_when_debug_mentions_app (DEBUG : option string) :
  opens_devtools DEBUG = true ↔
  ∃ d n, DEBUG = Some d ∧ String.substring n 12 d = "ipfs-desktop".
Proof.
  unfold opens_devtools. split.
  - destruct DEBUG as [d|]; [|done]. intros [_ H]%andb_true_iff.
    destruct (String.index 0 "ipfs-desktop" d) as [n|] eqn:E; [|done].
    exists d, n. split; [done|]. exact (String.index_correct1 0 n "ipfs-desktop" d E).
  - intros (d & n & -> & Hsub). apply andb_true_iff. split.
    + destruct d; [|done]. by destruct n.
    + destruct (String.index 0 "ipfs-desktop" d) as [m|] eqn:E; [done|].
      destruct (String.index_correct3 0 n "ipfs-desktop" d E); [done | lia | exact Hsub].
Qed.

Lemma devtools_when_debug_mentions_app_witness :
  opens_devtools (Some "electron:*,ipfs-desktop") = true.
Proof.
  apply devtools_when_debug_mentions_app.
  exists "electron:*,ipfs-desktop", 11. split; reflexivity.
Defined.
